(** * repo-file-sync-action: the file materializer and the Git session

    A shallow embedding of [src/helpers.js] (the helpers [dedent],
    [execCmd], [write], [copy] and [walk], and the class [Git]) and the
    properties of its synchronisation engine.

    JavaScript strings are modelled as [string] (sequences of bytes; the
    inputs considered are ASCII), arrays as [list], objects used as
    dictionaries as [gmap string _], the values [undefined] and [null]
    explicitly, exceptions as the [Throw] case of [result]. *)

From Stdlib Require Import Ascii String List Arith Lia Bool.
From stdpp Require Import base option list strings gmap.
Import ListNotations.

Set Default Proof Using "Type".

(** String concatenation unfolds on a constructor, as list concatenation. *)
#[global] Arguments String.append !_ _ / : simpl nomatch.

(** ** JavaScript values and exceptions *)

(** A string-valued slot that may also hold [undefined] or [null]. *)
Inductive jsval : Type :=
| Undefined
| Null
| Str (s : string).

Definition jsval_eqb (a b : jsval) : bool :=
  match a, b with
  | Undefined, Undefined => true
  | Null, Null => true
  | Str x, Str y => String.eqb x y
  | _, _ => false
  end.

(** [a !== b] on such slots. *)
Definition strict_ne (a b : jsval) : bool := negb (jsval_eqb a b).

(** A computation that returns or throws an [Error] with a message. *)
Inductive result (A : Type) : Type :=
| Ok (a : A)
| Throw (message : string).
Arguments Ok {A} a.
Arguments Throw {A} message.

#[global] Instance result_ret : MRet result := fun A a => Ok a.
#[global] Instance result_bind : MBind result := fun A B k m =>
  match m with
  | Ok a => k a
  | Throw e => Throw e
  end.

(** ** String methods *)

Module JsString.

Definition chr (n : nat) : ascii := ascii_of_nat n.
Definition TAB : string := String (chr 9) "".
Definition LF : string := String (chr 10) "".
Definition CR : string := String (chr 13) "".

(** [s.startsWith(p)] *)
Fixpoint startsWith (p s : string) : bool :=
  match p with
  | EmptyString => true
  | String a p' =>
      match s with
      | EmptyString => false
      | String b s' => Ascii.eqb a b && startsWith p' s'
      end
  end.

(** The last character, if any. *)
Fixpoint last_char (s : string) : option ascii :=
  match s with
  | EmptyString => None
  | String a EmptyString => Some a
  | String _ s' => last_char s'
  end.

(** [s.endsWith("/")] and the like, for a one-character suffix. *)
Definition endsWithChar (c : ascii) (s : string) : bool :=
  match last_char s with
  | Some a => Ascii.eqb a c
  | None => false
  end.

(** [s.slice(n)] for [n >= 0]. *)
Fixpoint slice_from (n : nat) (s : string) : string :=
  match n with
  | O => s
  | S k => match s with
           | EmptyString => EmptyString
           | String _ s' => slice_from k s'
           end
  end.

(** [s.split(sep)] for a non-empty separator: the pieces between the
    leftmost non-overlapping occurrences of [sep]. [skip] counts the
    characters of a separator still to be passed over. *)
Fixpoint split_go (sep : string) (skip : nat) (s : string) : list string :=
  match s with
  | EmptyString => [EmptyString]
  | String a s' =>
      match skip with
      | S k => split_go sep k s'
      | O =>
          if startsWith sep s
          then EmptyString :: split_go sep (String.length sep - 1) s'
          else match split_go sep 0 s' with
               | h :: t => String a h :: t
               | [] => [String a EmptyString]
               end
      end
  end.

Definition split (sep s : string) : list string := split_go sep 0 s.

(** [arr.join(sep)] *)
Fixpoint join (sep : string) (l : list string) : string :=
  match l with
  | [] => EmptyString
  | [x] => x
  | x :: rest => x +:+ sep +:+ join sep rest
  end.

(** White space of [String.prototype.trim] within ASCII. *)
Definition is_ws (a : ascii) : bool :=
  let n := nat_of_ascii a in
  (Nat.leb 9 n && Nat.leb n 13) || Nat.eqb n 32.

Fixpoint trimStart (s : string) : string :=
  match s with
  | EmptyString => EmptyString
  | String a s' => if is_ws a then trimStart s' else s
  end.

Fixpoint trimEnd (s : string) : string :=
  match s with
  | EmptyString => EmptyString
  | String a s' =>
      match trimEnd s' with
      | EmptyString => if is_ws a then EmptyString else String a EmptyString
      | t => String a t
      end
  end.

Definition trim (s : string) : string := trimEnd (trimStart s).

(** [s.replace(pat, rep)] for a string pattern: the first occurrence only. *)
Fixpoint replace_first (pat rep s : string) : string :=
  if startsWith pat s then rep +:+ slice_from (String.length pat) s
  else match s with
       | EmptyString => EmptyString
       | String a s' => String a (replace_first pat rep s')
       end.

(** [s.replace(/^:/, '')] and the like: a pattern anchored at the start. *)
Definition replace_anchored (pat rep s : string) : string :=
  if startsWith pat s then rep +:+ slice_from (String.length pat) s else s.

(** [c] occurs in [s]. *)
Fixpoint has_char (c : ascii) (s : string) : bool :=
  match s with
  | EmptyString => false
  | String a s' => Ascii.eqb a c || has_char c s'
  end.

End JsString.

(** ** Array methods *)

Module JsArray.

(** [arr.findIndex(p)], [None] standing for [-1]. *)
Fixpoint findIndex {A} (p : A -> bool) (l : list A) : option nat :=
  match l with
  | [] => None
  | x :: rest => if p x then Some 0 else S <$> findIndex p rest
  end.

(** [arr.includes(s)] and [arr.indexOf(s) !== -1] on arrays of strings. *)
Definition includes (l : list string) (s : string) : bool :=
  existsb (String.eqb s) l.

(** [arr.slice(0, -1)] *)
Definition drop_last {A} (l : list A) : list A := removelast l.

(** [arr[i]], [None] standing for [undefined]. *)
Definition at_index {A} (l : list A) (i : nat) : option A := nth_error l i.

End JsArray.

Import JsString JsArray.

(** ** [Git.getTreeDiff]: parsing the output of [git diff-tree] *)

Record TreeDiffEntry : Type := mkEntry {
  newMode : jsval;
  previousMode : jsval;
  newBlob : jsval;
  previousBlob : jsval;
  change : jsval;
  path : jsval
}.

(** [const [a, b, ...] = splitted]: a missing element is [undefined]. *)
Definition elem (l : list string) (i : nat) : jsval :=
  match at_index l i with
  | Some s => Str s
  | None => Undefined
  end.

(** One iteration of the loop over the lines of the output. *)
Definition parseTreeDiffLine (line : string) : TreeDiffEntry :=
  let splitted :=
    split " " (replace_first TAB " " (replace_anchored ":" "" line)) in
  {| newMode := elem splitted 0;
     previousMode := elem splitted 1;
     newBlob := elem splitted 2;
     previousBlob := elem splitted 3;
     change := elem splitted 4;
     path := elem splitted 5 |}.

(** The loop of [getTreeDiff] over [output], the result of [execCmd]. *)
Definition parseTreeDiff (output : string) : list TreeDiffEntry :=
  map parseTreeDiffLine (split LF output).

(** ** [Git.parseGitDiffOutput]: parsing a unified diff *)

(** The body of the reducer: one per-file segment [fileDiff] of the diff. *)
Definition parseFileDiff (resultDict : gmap string string) (fileDiff : string)
  : result (gmap string string) :=
  let lines := split LF fileDiff in
  match findIndex (startsWith "+++") lines with
  | None => Ok resultDict (* ignore binary files *)
  | Some lastHeaderLineIndex =>
      let plainDiff := trim (join LF (drop (S lastHeaderLineIndex) lines)) in
      let header := default "" (at_index lines lastHeaderLineIndex) in
      if startsWith "+++ b/" header
      then Ok (<[slice_from 6 header := plainDiff]> resultDict)
      else
        match lastHeaderLineIndex with
        | O => Throw "Cannot read properties of undefined (reading 'slice')"
        | S before =>
            let previous := default "" (at_index lines before) in
            Ok (<[slice_from 6 previous := plainDiff]> resultDict)
        end
  end.

(** The per-file segments: [`\n${ string }`.split('\ndiff --git').slice(1)] *)
Definition fileDiffs (s : string) : list string :=
  tail (split (LF +:+ "diff --git") (LF +:+ s)).

(** [reduce] with a callback that may throw. *)
Fixpoint reduce {A B} (f : B -> A -> result B) (l : list A) (init : B)
  : result B :=
  match l with
  | [] => Ok init
  | x :: rest => acc ← f init x; reduce f rest acc
  end.

Definition parseGitDiffOutput (s : string) : result (gmap string string) :=
  reduce parseFileDiff (fileDiffs s) ∅.

(** *** The entry of a segment, as the specification words it

    The header line of a segment is its first line that starts with [+++];
    a segment without one (a binary file) has no entry. The path is the
    header line less its first six characters when the line starts with
    [+++ b/], and otherwise (a deleted file) the line before it less its
    first six characters; the body is the text after the header line,
    trimmed. *)

Definition headerIndex (fileDiff : string) : option nat :=
  findIndex (startsWith "+++") (split LF fileDiff).

Definition diffPath (fileDiff : string) : option string :=
  let lines := split LF fileDiff in
  i ← headerIndex fileDiff;
  header ← at_index lines i;
  if startsWith "+++ b/" header then Some (slice_from 6 header)
  else match i with
       | O => None
       | S before => slice_from 6 <$> at_index lines before
       end.

Definition diffBody (fileDiff : string) : option string :=
  i ← headerIndex fileDiff;
  Some (trim (JsString.join LF (drop (S i) (split LF fileDiff)))).

(** What one step of the reducer adds to the dictionary. *)
Definition addSegment (m : gmap string string) (seg : string)
  : gmap string string :=
  match diffPath seg, diffBody seg with
  | Some p, Some b => <[p := b]> m
  | _, _ => m
  end.

(** The header line of a segment of a diff is not its first line, which is
    the rest of the line [diff --git a/... b/...]. *)
Definition textSegment (fileDiff : string) : bool :=
  match headerIndex fileDiff with
  | Some O => false
  | _ => true
  end.

(** ** [path.join] of Node's POSIX [path] module *)

Module Path.

(** One segment of [normalizeString]: empty and [.] segments are dropped,
    [..] removes the segment before it, or is kept when there is none to
    remove and the path is relative. [stack] is the reversed result. *)
Definition norm_step (allowAboveRoot : bool) (stack : list string)
    (seg : string) : list string :=
  if String.eqb seg "" || String.eqb seg "." then stack
  else if String.eqb seg ".." then
    match stack with
    | top :: rest =>
        if String.eqb top ".."
        then (if allowAboveRoot then seg :: stack else stack)
        else rest
    | [] => if allowAboveRoot then [seg] else []
    end
  else seg :: stack.

Definition norm_segments (allowAboveRoot : bool) (p : string) : list string :=
  rev (fold_left (norm_step allowAboveRoot) (split "/" p) []).

Definition normalizeString (p : string) (allowAboveRoot : bool) : string :=
  JsString.join "/" (norm_segments allowAboveRoot p).

Definition normalize (p : string) : string :=
  if String.eqb p "" then "."
  else
    let isAbsolute := startsWith "/" p in
    let trailingSeparator := endsWithChar "/" p in
    let q := normalizeString p (negb isAbsolute) in
    if String.eqb q "" then
      if isAbsolute then "/" else if trailingSeparator then "./" else "."
    else
      let q := if trailingSeparator then q +:+ "/" else q in
      if isAbsolute then "/" +:+ q else q.

(** [path.join(a, b)] *)
Definition join (a b : string) : string :=
  if String.eqb a "" then (if String.eqb b "" then "." else normalize b)
  else if String.eqb b "" then normalize a
  else normalize (a +:+ "/" +:+ b).

End Path.

(** ** The file system

    A tree of directories and regular files. The root of the tree is both
    [/] and the working directory of the process; there are no symbolic
    links. The entries of a directory are kept in the order in which
    [readdir] lists them. *)

#[warnings="-register-all"]
Inductive node : Type :=
| File (content : string)
| Dir (entries : list (string * node)).

Module Fs.

Fixpoint lookup_entry (name : string) (es : list (string * node))
  : option node :=
  match es with
  | [] => None
  | (k, n) :: rest => if String.eqb k name then Some n else lookup_entry name rest
  end.

Fixpoint descend (n : node) (segs : list string) : option node :=
  match segs with
  | [] => Some n
  | s :: rest =>
      match n with
      | Dir es =>
          match lookup_entry s es with
          | Some child => descend child rest
          | None => None
          end
      | File _ => None
      end
  end.

(** The names from the root down to the file a path denotes. *)
Definition segments (p : string) : list string := Path.norm_segments false p.

Definition resolve (root : node) (p : string) : option node :=
  if String.eqb p "" then None else descend root (segments p).

Definition ENOENT (p : string) : string :=
  "ENOENT: no such file or directory '" +:+ p +:+ "'".
Definition ENOTDIR (p : string) : string :=
  "ENOTDIR: not a directory '" +:+ p +:+ "'".
Definition EISDIR (p : string) : string :=
  "EISDIR: illegal operation on a directory '" +:+ p +:+ "'".

(** [fs.lstatSync(p).isDirectory()] and [(await fs.stat(p)).isDirectory()] *)
Definition stat_isDirectory (root : node) (p : string) : result bool :=
  match resolve root p with
  | Some (Dir _) => Ok true
  | Some (File _) => Ok false
  | None => Throw (ENOENT p)
  end.

Definition existsSync (root : node) (p : string) : bool :=
  match resolve root p with
  | Some _ => true
  | None => false
  end.

Definition readFile (root : node) (p : string) : result string :=
  match resolve root p with
  | Some (File c) => Ok c
  | Some (Dir _) => Throw (EISDIR p)
  | None => Throw (ENOENT p)
  end.

(** A chain of fresh directories down to [new]. *)
Fixpoint fresh (segs : list string) (new : node) : node :=
  match segs with
  | [] => new
  | s :: rest => Dir [(s, fresh rest new)]
  end.

(** Put [new] at the place [segs], creating the directories on the way;
    [upd] is applied to the node already there, if any. *)
Fixpoint put (segs : list string) (upd : option node -> result node)
    (n : node) {struct segs} : result node :=
  match segs with
  | [] => upd (Some n)
  | s :: rest =>
      match n with
      | File _ => Throw (ENOTDIR s)
      | Dir es =>
          let fix go (es : list (string * node))
            : result (list (string * node)) :=
            match es with
            | [] => new ← upd None; Ok [(s, fresh rest new)]
            | (k, c) :: tl =>
                if String.eqb k s
                then c' ← put rest upd c; Ok ((k, c') :: tl)
                else tl' ← go tl; Ok ((k, c) :: tl')
            end in
          es' ← go es; Ok (Dir es')
      end
  end.

(** [fs.outputFile(p, content)]: write a file, creating its directories. *)
Definition outputFile (root : node) (p content : string) : result node :=
  put (segments p)
      (fun old => match old with
                  | Some (Dir _) => Throw (EISDIR p)
                  | _ => Ok (File content)
                  end) root.

(** Make sure a directory exists at [p], as [fs.copy] does for the
    destination of a directory. *)
Definition ensureDir (root : node) (p : string) : result node :=
  put (segments p)
      (fun old => match old with
                  | Some (File _) =>
                      Throw ("Cannot overwrite non-directory '" +:+ p
                             +:+ "' with directory")
                  | Some d => Ok d
                  | None => Ok (Dir [])
                  end) root.

(** [fs.remove(p)]: delete the file or directory at [p] with all it
    contains; nothing happens when there is none. *)
Fixpoint remove_at (segs : list string) (n : node) {struct segs} : node :=
  match segs with
  | [] => n
  | s :: rest =>
      match n with
      | File _ => n
      | Dir es =>
          match rest with
          | [] => Dir (filter (fun e => negb (String.eqb (fst e) s)) es)
          | _ =>
              Dir (map (fun e => if String.eqb (fst e) s
                                 then (fst e, remove_at rest (snd e))
                                 else e) es)
          end
      end
  end.

Definition remove (root : node) (p : string) : node :=
  if String.eqb p "" then root else remove_at (segments p) root.

End Fs.

(** ** [walk] *)

(** The loop of [walk] over the entries of the directory [dir]:
    [fs.readdir(dir)] lists the names of [entries],
    [fs.stat(path.join(dir, file))] looks at the node of the entry. The
    array [fileList] is extended in place and handed back. *)
Fixpoint walk_node (dir : string) (n : node) (fileList : list string)
  : list string :=
  match n with
  | File _ => fileList
  | Dir entries =>
      (fix loop (files : list (string * node)) (fileList : list string)
         : list string :=
         match files with
         | [] => fileList
         | (file, child) :: rest =>
             loop rest
               match child with
               | Dir _ => walk_node (Path.join dir file) child fileList
               | File _ => fileList ++ [Path.join dir file]
               end
         end) entries fileList
  end.

Definition walk_entries (dir : string) (entries : list (string * node))
    (fileList : list string) : list string :=
  walk_node dir (Dir entries) fileList.

Definition walk (root : node) (dir : string) : result (list string) :=
  match Fs.resolve root dir with
  | Some (Dir entries) => Ok (walk_entries dir entries [])
  | Some (File _) => Throw (Fs.ENOTDIR dir)
  | None => Throw (Fs.ENOENT dir)
  end.

(** *** Well-formed trees and directory paths *)

(** A name that [readdir] can list: not empty, not [.] or [..], and
    without a slash. *)
Definition plain_name (s : string) : bool :=
  negb (String.eqb s "") && negb (String.eqb s ".")
  && negb (String.eqb s "..") && negb (has_char "/" s).

(** Every entry of every directory of the tree has such a name. *)
Fixpoint wf_node (n : node) : bool :=
  match n with
  | File _ => true
  | Dir entries =>
      forallb (fun e => plain_name (fst e) && wf_node (snd e)) entries
  end.

(** The directory path made of the names [segs], absolute or relative,
    with or without a slash at its end. *)
Definition dirPath (absolute : bool) (segs : list string) (slash : bool)
  : string :=
  (if absolute then "/" else "") +:+ JsString.join "/" segs
  +:+ (if slash then "/" else "").

(** The pieces a directory path splits into at its slashes. *)
Definition pieces (absolute : bool) (segs : list string) (slash : bool)
  : list string :=
  (if absolute then [""] else []) ++ segs ++ (if slash then [""] else []).

(** What [walk] lists for one entry of the directory [dir]. *)
Definition visit (dir : string) (e : string * node) : list string :=
  match snd e with
  | Dir sub => walk_entries (Path.join dir (fst e)) sub []
  | File _ => [Path.join dir (fst e)]
  end.

(** ** [copy]: materializing one file rule *)

(** What the filter predicate sees of the file system. [lstat_isDirectory]
    is [fs.lstatSync(p).isDirectory()], which throws when there is nothing
    at [p], and also when [p] is [undefined]. *)
Record FsView : Type := mkFsView {
  lstat_isDirectory : option string -> result bool;
  exists_sync : option string -> bool
}.

Definition view_of (root : node) : FsView :=
  {| lstat_isDirectory := fun p =>
       match p with
       | Some p => Fs.stat_isDirectory root p
       | None =>
           Throw "The path argument must be of type string. Received undefined"
       end;
     exists_sync := fun p =>
       match p with
       | Some p => Fs.existsSync root p
       | None => false
       end |}.

Section Materializer.

(** The patterns of [excludeFilePatterns] and [includeFilePatterns] and
    [srcFile.match(pattern)] as a truth value. *)
Variable pattern : Type.
Variable str_match : string -> pattern -> bool.

(** The template context and the rendering of a template text. *)
Variable context : Type.
Variable render : string -> context -> string.

(** A file rule; [replace] and [exclude] may be [undefined]. *)
Record FileRule : Type := mkFileRule {
  template : option context;
  replace : option bool;
  exclude : option (list string);
  excludeFilePatterns : list pattern;
  includeFilePatterns : list pattern;
  deleteOrphaned : bool
}.

(** The folder a source path lies in, with its trailing slash. *)
Definition folderOf (srcFile : string) : string :=
  if endsWithChar "/" srcFile then srcFile
  else JsString.join "/" (drop_last (split "/" srcFile)) +:+ "/".

(** The part of [filterFunc] after the [replace] guard. *)
Definition filterChecks (file : FileRule) (srcFile : string) : bool :=
  if match exclude file with
     | Some exclude =>
         includes exclude (folderOf srcFile) || includes exclude srcFile
     | None => false
     end
  then false
  else if existsb (str_match srcFile) (excludeFilePatterns file) then false
  else if negb (Nat.eqb (length (includeFilePatterns file)) 0)
          && negb (existsb (str_match srcFile) (includeFilePatterns file))
  then false
  else true.

Definition filterFunc (fsv : FsView) (file : FileRule) (srcFile : string)
    (destFile : option string) : bool :=
  match replace file with
  | Some false =>
      match lstat_isDirectory fsv destFile with
      | Ok true => true (* Directories are always copied *)
      | Throw _ => true
      | Ok false =>
          if exists_sync fsv destFile then false
          else filterChecks file srcFile
      end
  | _ => filterChecks file srcFile
  end.

(** [write(src, dest, context)]: render the template at [src] into [dest]. *)
Definition write (root : node) (src dest : string) (ctx : context)
  : result node :=
  match Fs.readFile root src with
  | Ok text => Fs.outputFile root dest (render text ctx)
  | Throw _ => Throw ("template not found: " +:+ src)
  end.

(** [fs.copy(src, dest, { filter })] of fs-extra: the filter is asked for
    [src] itself and for every item below it; existing files are
    overwritten, nothing is deleted. *)
Fixpoint copy_item (filter : node -> string -> option string -> bool)
    (srcItem destItem : string) (n : node) (root : node) : result node :=
  if filter root srcItem (Some destItem) then
    match n with
    | File content => Fs.outputFile root destItem content
    | Dir entries =>
        root ← Fs.ensureDir root destItem;
        (fix items (es : list (string * node)) (root : node) : result node :=
           match es with
           | [] => Ok root
           | (item, child) :: rest =>
               root ← copy_item filter (Path.join srcItem item)
                        (Path.join destItem item) child root;
               items rest root
           end) entries root
    end
  else Ok root.

Definition fs_copy (filter : node -> string -> option string -> bool)
    (root : node) (src dest : string) : result node :=
  match Fs.resolve root src with
  | Some n => copy_item filter src dest n root
  | None => Throw (Fs.ENOENT src)
  end.

(** The loop of the template branch over the listing of [src]. *)
Fixpoint renderAll (file : FileRule) (ctx : context) (src dest : string)
    (srcFileList : list string) (root : node) : result node :=
  match srcFileList with
  | [] => Ok root
  | srcFile :: rest =>
      if negb (filterFunc (view_of root) file srcFile None)
      then renderAll file ctx src dest rest root
      else
        let srcPath := Path.join src srcFile in
        let destPath := Path.join dest srcFile in
        root ← write root srcPath destPath ctx;
        renderAll file ctx src dest rest root
  end.

(** The loop over the listing of [dest] when [deleteOrphaned] is set. The
    [return] on a name that starts with [.git] leaves the whole loop. *)
Fixpoint deleteOrphans (file : FileRule) (src dest : string)
    (srcFileList destFileList : list string) (root : node) : node :=
  match destFileList with
  | [] => root
  | destFile :: rest =>
      if startsWith ".git" destFile then root
      else if negb (includes srcFileList destFile) then
        let filePath := Path.join dest destFile in
        if match exclude file with
           | Some exclude => includes exclude (Path.join src destFile)
           | None => false
           end
        then deleteOrphans file src dest srcFileList rest root
        else deleteOrphans file src dest srcFileList rest
               (Fs.remove root filePath)
      else deleteOrphans file src dest srcFileList rest root
  end.

Definition copy (root : node) (src dest : string) (isDirectory : bool)
    (file : FileRule) : result node :=
  let deleteOrphaned := isDirectory && deleteOrphaned file in
  root ←
    match template file with
    | Some ctx =>
        if isDirectory then
          srcFileList ← walk root src;
          renderAll file ctx src dest srcFileList root
        else write root src dest ctx
    | None =>
        fs_copy (fun root => filterFunc (view_of root) file) root src dest
    end;
  if deleteOrphaned then
    srcFileList ← walk root src;
    destFileList ← walk root dest;
    Ok (deleteOrphans file src dest srcFileList destFileList root)
  else Ok root.

End Materializer.

Arguments mkFileRule {pattern context}.
Arguments template {pattern context}.
Arguments replace {pattern context}.
Arguments exclude {pattern context}.
Arguments excludeFilePatterns {pattern context}.
Arguments includeFilePatterns {pattern context}.
Arguments deleteOrphaned {pattern context}.
Arguments filterChecks {pattern} str_match {context}.
Arguments filterFunc {pattern} str_match {context}.
Arguments copy {pattern} str_match {context}.
Arguments renderAll {pattern} str_match {context} render.
Arguments deleteOrphans {pattern context}.
Arguments write {context} render.

(** ** [dedent], called on one string *)

Module Dedent.

Definition is_blank (a : ascii) : bool :=
  Ascii.eqb a (chr 9) || Ascii.eqb a (chr 32).

Fixpoint only_blanks (s : string) : bool :=
  match s with
  | EmptyString => true
  | String a s' => is_blank a && only_blanks s'
  end.

(** The length of the run of tabs and spaces [s] starts with. *)
Fixpoint blank_run (s : string) : nat :=
  match s with
  | EmptyString => 0
  | String a s' => if is_blank a then S (blank_run s') else 0
  end.

(** The first [replace] of [dedent]: the last line break of the string is
    dropped, with the carriage return before it, when only tabs and spaces
    follow it. *)
Fixpoint strip_last_line (s : string) : string :=
  match s with
  | EmptyString => EmptyString
  | String a s' =>
      if Ascii.eqb a (chr 10) && only_blanks s' then EmptyString
      else if Ascii.eqb a (chr 13) && startsWith LF s'
              && only_blanks (slice_from 1 s') then EmptyString
      else String a (strip_last_line s')
  end.

(** The lengths, less one, of the matches of a line break followed by one
    or more tabs and spaces. *)
Fixpoint indents (s : string) : list nat :=
  match s with
  | EmptyString => []
  | String a s' =>
      if Ascii.eqb a (chr 10) && negb (Nat.eqb (blank_run s') 0)
      then blank_run s' :: indents s'
      else indents s'
  end.

(** Every line break followed by [size] tabs and spaces loses these;
    [skip] counts the characters of a match still to be dropped. *)
Fixpoint unindent (size skip : nat) (s : string) : string :=
  match s with
  | EmptyString => EmptyString
  | String a s' =>
      match skip with
      | S k => unindent size k s'
      | O =>
          if Ascii.eqb a (chr 10) && Nat.leb size (blank_run s')
          then String a (unindent size size s')
          else String a (unindent size 0 s')
      end
  end.

(** The last [replace] of [dedent]: a line break at the very start is
    dropped. *)
Definition strip_first_newline (s : string) : string :=
  if startsWith (CR +:+ LF) s then slice_from 2 s
  else if startsWith LF s then slice_from 1 s
  else s.

Definition dedent (templateStrings : string) : string :=
  let s := strip_last_line templateStrings in
  let matches := indents s in
  let s :=
    match matches with
    | [] => s
    | m :: rest => unindent (fold_left Nat.min rest m) 0 s
    end in
  strip_first_newline s.

End Dedent.

(** ** [Buffer.from(s).toString('base64')] *)

Module Base64.

Definition alphabet : list ascii :=
  list_ascii_of_string
    "ABCDEFGHIJKLMNOPQRSTUVWXYZabcdefghijklmnopqrstuvwxyz0123456789+/".

Definition digit (n : nat) : ascii := nth n alphabet "="%char.

Fixpoint encode (s : string) : string :=
  match s with
  | EmptyString => EmptyString
  | String a EmptyString =>
      let x := nat_of_ascii a in
      String (digit (x / 4)) (String (digit (x mod 4 * 16)) "==")
  | String a (String b EmptyString) =>
      let x := nat_of_ascii a in
      let y := nat_of_ascii b in
      String (digit (x / 4))
        (String (digit (x mod 4 * 16 + y / 16))
           (String (digit (y mod 16 * 4)) "="))
  | String a (String b (String c rest)) =>
      let x := nat_of_ascii a in
      let y := nat_of_ascii b in
      let z := nat_of_ascii c in
      String (digit (x / 4))
        (String (digit (x mod 4 * 16 + y / 16))
           (String (digit (y mod 16 * 4 + z / 64))
              (String (digit (z mod 64)) (encode rest))))
  end.

End Base64.

(** ** The class [Git] *)

(** The values read from [config.js]. *)
Record Config : Type := mkConfig {
  COMMIT_PREFIX : string;
  GITHUB_REPOSITORY : string;
  GITHUB_SERVER_URL : string;
  PR_BODY : string;
  SKIP_PR : bool;
  FORK : option string;
  GITHUB_RUN_ID : option string
}.

(** One entry of the [tree] array given to [git.createTree]. *)
Record TreeEntry : Type := mkTreeEntry {
  entry_path : jsval;
  entry_mode : jsval;
  entry_type : string;
  entry_sha : jsval
}.

(** The requests to the REST client [this.github]. *)
Inductive ApiCall : Type :=
| CreateRef (owner repo sha ref : string)
| CreateBlob (owner repo content encoding : string)
| CreateTree (owner repo : string) (tree : list TreeEntry) (base_tree : string)
| CreateCommit (owner repo message : string) (parents : list string)
    (tree : string)
| UpdateRef (owner repo ref sha : string) (force : bool)
| PullsUpdate (owner repo title : string) (pull_number : nat) (body : string)
| PullsCreate (owner repo title body head base : string).

(** The [data] of a response, with the fields the class reads. *)
Record ResponseData : Type := mkData {
  data_sha : string;
  data_number : nat;
  data_body : string
}.

(** The fields of a [Git] object, and the requests it has sent. *)
Record Git : Type := mkGit {
  repo_user : string;
  repo_name : string;
  workingDir : string;
  baseBranch : string;
  prBranch : string;
  lastCommitSha : string;
  existingPr : option ResponseData;
  requests : list ApiCall
}.

Definition set_lastCommitSha (sha : string) (g : Git) : Git :=
  mkGit (repo_user g) (repo_name g) (workingDir g) (baseBranch g)
        (prBranch g) sha (existingPr g) (requests g).

Definition set_existingPr (pr : option ResponseData) (g : Git) : Git :=
  mkGit (repo_user g) (repo_name g) (workingDir g) (baseBranch g)
        (prBranch g) (lastCommitSha g) pr (requests g).

Definition set_requests (l : list ApiCall) (g : Git) : Git :=
  mkGit (repo_user g) (repo_name g) (workingDir g) (baseBranch g)
        (prBranch g) (lastCommitSha g) (existingPr g) l.

Definition add_request (c : ApiCall) (g : Git) : Git :=
  set_requests (requests g ++ [c]) g.

(** A method of the class: it reads and updates [this], and returns or
    throws. *)
Definition M (A : Type) : Type := Git -> result A * Git.

#[global] Instance M_ret : MRet M := fun A a g => (Ok a, g).
#[global] Instance M_bind : MBind M := fun A B k m g =>
  match m g with
  | (Ok a, g') => k a g'
  | (Throw e, g') => (Throw e, g')
  end.

Definition this : M Git := fun g => (Ok g, g).
Definition throw {A} (message : string) : M A := fun g => (Throw message, g).
Definition lift {A} (r : result A) : M A := fun g => (r, g).
Definition modify (f : Git -> Git) : M unit := fun g => (Ok tt, f g).

(** [try { m } catch (error) { handler(error.message) }] *)
Definition try_catch {A} (m : M A) (handler : string -> M A) : M A :=
  fun g =>
    match m g with
    | (Ok a, g') => (Ok a, g')
    | (Throw e, g') => handler e g'
    end.

(** [for (const x of l) await f(x)] *)
Fixpoint forEach {A} (f : A -> M unit) (l : list A) : M unit :=
  match l with
  | [] => mret tt
  | x :: rest => f x ≫= fun _ => forEach f rest
  end.

(** [await Promise.all(l)]: every promise of [l] has been started, so all
    of them run; the first rejection, if any, is thrown. *)
Fixpoint promise_all {A} (l : list (M A)) : M (list A) :=
  match l with
  | [] => mret []
  | m :: rest =>
      fun g =>
        match m g with
        | (Ok a, g') =>
            match promise_all rest g' with
            | (Ok l', g'') => (Ok (a :: l'), g'')
            | (Throw e, g'') => (Throw e, g'')
            end
        | (Throw e, g') => (Throw e, snd (promise_all rest g'))
        end
  end.

(** A method only adds to the requests sent. *)
Definition grows {A} (m : M A) : Prop :=
  forall g, exists rest, requests (snd (m g)) = requests g ++ rest.

(** [`${ v }`] *)
Definition template_of (v : jsval) : string :=
  match v with
  | Undefined => "undefined"
  | Null => "null"
  | Str s => s
  end.

Section GitClass.

(** The shell: the standard output of a command run in a directory, or the
    error of its non-zero exit. *)
Variable shell : string -> string -> result string.

(** The platform: its answer to a request, given the requests before it. *)
Variable github : list ApiCall -> ApiCall -> result ResponseData.

Variable config : Config.

Definition execCmd (command workingDir : string) (trimResult : bool)
  : M string :=
  lift (stdout ← shell command workingDir;
        Ok (if trimResult then trim stdout else stdout)).

(** A call of a method of [this.github]. *)
Definition request (c : ApiCall) : M ResponseData :=
  fun g => (github (requests g) c, add_request c g).

Definition defaultTitle : string :=
  COMMIT_PREFIX config +:+ " synced file(s) with " +:+ GITHUB_REPOSITORY config.

Definition getTreeId (commitSha : string) : M string :=
  g ← this;
  out ← execCmd ("git cat-file -p " +:+ commitSha) (workingDir g) true;
  let output := split LF out in
  let commitHeaders :=
    match findIndex (String.eqb "") output with
    | Some i => take i output
    | None => drop_last output
    end in
  match find (startsWith "tree") commitHeaders with
  | Some e => mret (replace_first "tree " "" e)
  | None => throw "Cannot read properties of undefined (reading 'replace')"
  end.

Definition getTreeDiff (referenceTreeId differenceTreeId : string)
  : M (list TreeDiffEntry) :=
  g ← this;
  output ← execCmd ("git diff-tree " +:+ referenceTreeId +:+ " "
                    +:+ differenceTreeId +:+ " -r") (workingDir g) true;
  mret (parseTreeDiff output).

Definition uploadGitHubBlob (blob : jsval) : M ResponseData :=
  g ← this;
  fileContent ← execCmd ("git cat-file -p " +:+ template_of blob)
                  (workingDir g) false;
  request (CreateBlob (repo_user g) (repo_name g)
             (Base64.encode fileContent) "base64").

Definition getCommitsToPush : M (list string) :=
  g ← this;
  output ← execCmd ("git log --format=%H --reverse " +:+ lastCommitSha g
                    +:+ "..HEAD") (workingDir g) true;
  mret (split LF output).

Definition getCommitMessage (commitSha : string) : M string :=
  g ← this;
  execCmd ("git log -1 --format=%B " +:+ commitSha) (workingDir g) true.

(** The entry of the tree request made from a row of the diff. *)
Definition treeEntryOf (e : TreeDiffEntry) : TreeEntry :=
  if jsval_eqb (newMode e) (Str "000000")
  then mkTreeEntry (path e) (previousMode e) "blob" Null
  else mkTreeEntry (path e) (newMode e) "blob" (newBlob e).

(** Do not upload the blob if it is being removed. *)
Definition blobsToCreate (treeDiff : list TreeDiffEntry) : list TreeDiffEntry :=
  filter (fun e => strict_ne (newMode e) (Str "000000") = true) treeDiff.

Definition createGithubCommit (commitSha : string) : M unit :=
  treeId ← getTreeId commitSha;
  parentTreeId ← getTreeId (commitSha +:+ "~1");
  commitMessage ← getCommitMessage commitSha;
  treeDiff ← getTreeDiff treeId parentTreeId;
  _ ← promise_all
        (map (fun e => uploadGitHubBlob (newBlob e)) (blobsToCreate treeDiff));
  let tree := map treeEntryOf treeDiff in
  g ← this;
  req ← try_catch
          (request (CreateTree (repo_user g) (repo_name g) tree parentTreeId))
          (fun message =>
             throw ("Cannot create a new GitHub Tree: " +:+ message));
  let treeSha := data_sha req in
  g ← this;
  req ← request (CreateCommit (repo_user g) (repo_name g) commitMessage
                   [lastCommitSha g] treeSha);
  modify (set_lastCommitSha (data_sha req)).

(** The request of [createGithubVerifiedCommits] for the branch of the
    pull request. *)
Definition prBranchRef (g : Git) : ApiCall :=
  CreateRef (repo_user g) (repo_name g) (lastCommitSha g)
    ("refs/heads/" +:+ prBranch g).

(** The [try] statement of [createGithubVerifiedCommits]: creates the PR
    branch if it does not exist. *)
Definition createPrBranchRef : M unit :=
  g ← this;
  try_catch
    (_ ← request (prBranchRef g); mret tt)
    (fun message =>
       (* If the branch exists ignores the error *)
       if negb (String.eqb message "Reference already exists")
       then throw message
       else mret tt).

(** The loop over the commits and the update of the branch that end
    [createGithubVerifiedCommits]. *)
Definition replayCommits (commits : list string) : M unit :=
  _ ← forEach createGithubCommit commits;
  g ← this;
  _ ← request (UpdateRef (repo_user g) (repo_name g)
                 ("heads/" +:+ (if negb (SKIP_PR config) then prBranch g
                                else baseBranch g))
                 (lastCommitSha g) true);
  mret tt.

Definition createGithubVerifiedCommits : M unit :=
  commits ← getCommitsToPush;
  _ ← (if negb (SKIP_PR config) then createPrBranchRef else mret tt);
  replayCommits commits.

(** [process.env.GITHUB_RUN_ID || 0] inside a template literal. *)
Definition runId : string :=
  match GITHUB_RUN_ID config with
  | Some s => if String.eqb s "" then "0" else s
  | None => "0"
  end.

Definition TAB3 : string := TAB +:+ TAB +:+ TAB.

Definition prBody (changedFiles : string) : string :=
  Dedent.dedent
    (LF +:+ TAB3 +:+ "synced local file(s) with [" +:+ GITHUB_REPOSITORY config
     +:+ "](" +:+ GITHUB_SERVER_URL config +:+ "/" +:+ GITHUB_REPOSITORY config
     +:+ ")." +:+ LF +:+ LF +:+ TAB3 +:+ PR_BODY config +:+ LF +:+ LF
     +:+ TAB3 +:+ changedFiles +:+ LF +:+ LF +:+ TAB3 +:+ "---" +:+ LF +:+ LF
     +:+ TAB3 +:+ "This PR was created automatically by the [repo-file-sync-action](https://github.com/BetaHuhn/repo-file-sync-action) workflow run [#"
     +:+ runId +:+ "](" +:+ GITHUB_SERVER_URL config +:+ "/"
     +:+ GITHUB_REPOSITORY config +:+ "/actions/runs/" +:+ runId +:+ ")"
     +:+ LF +:+ TAB +:+ TAB).

(** [FORK ? FORK : this.repo.user] *)
Definition headOwner (g : Git) : string :=
  match FORK config with
  | Some f => if String.eqb f "" then repo_user g else f
  | None => repo_user g
  end.

Definition createOrUpdatePr (changedFiles : string) (title : option string)
  : M ResponseData :=
  let body := prBody changedFiles in
  g ← this;
  match existingPr g with
  | Some pr =>
      request (PullsUpdate (repo_user g) (repo_name g) defaultTitle
                 (data_number pr) body)
  | None =>
      data ← request (PullsCreate (repo_user g) (repo_name g)
                        (match title with
                         | None => defaultTitle
                         | Some title => title
                         end)
                        body (headOwner g +:+ ":" +:+ prBranch g)
                        (baseBranch g));
      _ ← modify (set_existingPr (Some data));
      mret data
  end.


End GitClass.

Definition is_upload (c : ApiCall) : bool :=
  match c with
  | CreateBlob _ _ _ _ => true
  | _ => false
  end.

Definition is_commit (c : ApiCall) : bool :=
  match c with
  | CreateCommit _ _ _ _ _ => true
  | _ => false
  end.

Module Replay.
(** Two local commits on top of [c0]: [c1] adds [x.txt], [c2] modifies
    [x.txt] and deletes [y.txt]. *)

Definition zeros : string := "0000000000000000000000000000000000000000".

Definition outputs : list (string * string) :=
  [ ("git log --format=%H --reverse c0..HEAD", "c1" +:+ LF +:+ "c2" +:+ LF);
    ("git cat-file -p c1",
     "tree t1" +:+ LF +:+ "parent c0" +:+ LF +:+ "author A" +:+ LF +:+ LF
     +:+ "add x" +:+ LF);
    ("git cat-file -p c1~1",
     "tree t0" +:+ LF +:+ "author A" +:+ LF +:+ LF +:+ "add y" +:+ LF);
    ("git cat-file -p c2",
     "tree t2" +:+ LF +:+ "parent c1" +:+ LF +:+ "author A" +:+ LF +:+ LF
     +:+ "change x, drop y" +:+ LF);
    ("git cat-file -p c2~1",
     "tree t1" +:+ LF +:+ "parent c0" +:+ LF +:+ "author A" +:+ LF +:+ LF
     +:+ "add x" +:+ LF);
    ("git log -1 --format=%B c1", "add x" +:+ LF +:+ LF);
    ("git log -1 --format=%B c2", "change x, drop y" +:+ LF +:+ LF);
    ("git diff-tree t1 t0 -r",
     ":100644 000000 x1 " +:+ zeros +:+ " D" +:+ TAB +:+ "x.txt" +:+ LF);
    ("git diff-tree t2 t1 -r",
     ":100644 100644 x2 x1 M" +:+ TAB +:+ "x.txt" +:+ LF
     +:+ ":000000 100644 " +:+ zeros +:+ " y1 A" +:+ TAB +:+ "y.txt" +:+ LF);
    ("git cat-file -p x1", "one" +:+ LF);
    ("git cat-file -p x2", "two" +:+ LF);
    ("git cat-file -p y1", "why" +:+ LF) ].

Fixpoint assoc (k : string) (l : list (string * string)) : option string :=
  match l with
  | [] => None
  | (k', v) :: rest => if String.eqb k k' then Some v else assoc k rest
  end.

Definition shell (command workingDir : string) : result string :=
  match assoc command outputs with
  | Some out => Ok out
  | None => Throw ("Command failed: " +:+ command)
  end.

(** A platform that accepts every request. *)
Definition github (history : list ApiCall) (c : ApiCall) : result ResponseData :=
  match c with
  | CreateTree _ _ _ base => Ok (mkData ("tree-on-" +:+ base) 0 "")
  | CreateCommit _ _ _ _ tree => Ok (mkData ("commit-of-" +:+ tree) 0 "")
  | _ => Ok (mkData "" 0 "")
  end.

(** A platform on which the branch exists already. *)
Definition branchExists (history : list ApiCall) (c : ApiCall)
  : result ResponseData :=
  match c with
  | CreateRef _ _ _ _ => Throw "Reference already exists"
  | _ => github history c
  end.

(** A platform that refuses to create a branch. *)
Definition forbidden (history : list ApiCall) (c : ApiCall)
  : result ResponseData :=
  match c with
  | CreateRef _ _ _ _ => Throw "Resource not accessible by integration"
  | _ => github history c
  end.

Definition config : Config :=
  mkConfig "sync:" "org/tools" "https://github.com" "" false None None.

Definition session : Git :=
  mkGit "org" "repo" "/tmp/repo" "main" "repo-sync/tools/main" "c0" None [].

End Replay.

(** ** Well-formed output of [git diff-tree] *)

(** No white space inside. *)
Fixpoint no_ws (f : string) : bool :=
  match f with
  | EmptyString => true
  | String a f' => negb (is_ws a) && no_ws f'
  end.

(** Nothing but white space. *)
Fixpoint only_ws (f : string) : bool :=
  match f with
  | EmptyString => true
  | String a f' => is_ws a && only_ws f'
  end.

(** The columns of a row: new mode, previous mode, new blob, previous
    blob, change and path, each without white space, the path not empty. *)
Definition wf_row (r : list string) : bool :=
  Nat.eqb (length r) 6 && forallb no_ws r
  && negb (String.eqb (nth 5 r "") "").

(** The line that [git diff-tree] prints for a row. *)
Definition lineOf (r : list string) : string :=
  ":" +:+ nth 0 r "" +:+ " " +:+ nth 1 r "" +:+ " " +:+ nth 2 r "" +:+ " "
  +:+ nth 3 r "" +:+ " " +:+ nth 4 r "" +:+ TAB +:+ nth 5 r "".

Definition entryOf (r : list string) : TreeDiffEntry :=
  {| newMode := Str (nth 0 r "");
     previousMode := Str (nth 1 r "");
     newBlob := Str (nth 2 r "");
     previousBlob := Str (nth 3 r "");
     change := Str (nth 4 r "");
     path := Str (nth 5 r "") |}.

(** ** Concrete inputs *)

Module Examples.

(** The output of [git diff-tree] for one modified file. *)
Definition treeDiffInput : string :=
  "  :100644 100644 abc123 def456 M" +:+ TAB +:+ "foo/bar.txt" +:+ LF.

(** A shell in which every command prints [stdout]. *)
Definition printing (stdout : string) (command workingDir : string)
  : result string := Ok stdout.

(** A row of [git diff-tree]: its six columns. *)
Definition modifiedRow : list string :=
  ["100644"; "100644"; "abc123"; "def456"; "M"; "foo/bar.txt"].

(** A diff of a modified file, a binary file and a deleted file. *)
Definition diff : string :=
  "diff --git a/foo.txt b/foo.txt" +:+ LF +:+
  "index 111..222 100644" +:+ LF +:+
  "--- a/foo.txt" +:+ LF +:+
  "+++ b/foo.txt" +:+ LF +:+
  "@@ -1 +1 @@" +:+ LF +:+
  "-old" +:+ LF +:+
  "+new" +:+ LF +:+
  "diff --git a/img.png b/img.png" +:+ LF +:+
  "Binary files a/img.png and b/img.png differ" +:+ LF +:+
  "diff --git a/gone.txt b/gone.txt" +:+ LF +:+
  "deleted file mode 100644" +:+ LF +:+
  "--- a/gone.txt" +:+ LF +:+
  "+++ /dev/null" +:+ LF +:+
  "@@ -1 +0,0 @@" +:+ LF +:+
  "-bye" +:+ LF.

(** The entry with the two blob ids the other way round. *)
Definition swappedEntry : TreeDiffEntry :=
  {| previousMode := Str "100644";
     newMode := Str "100644";
     previousBlob := Str "abc123";
     newBlob := Str "def456";
     change := Str "M";
     path := Str "foo/bar.txt" |}.

(** [s.match(pattern)] for a pattern without special characters: [pattern]
    occurs in [s]. *)
Fixpoint occurs (s pattern : string) : bool :=
  startsWith pattern s
  || match s with
     | EmptyString => false
     | String _ s' => occurs s' pattern
     end.

(** A template engine that leaves the text as it is. *)
Definition plain (text : string) (ctx : unit) : string := text.

(** A source directory with one file and no destination yet. *)
Definition freshTree : node :=
  Dir [("src", Dir [("secret.txt", File "s"); ("app.test.js", File "t")])].

Definition keepRule : FileRule string unit :=
  {| template := None; replace := Some false; exclude := None;
     excludeFilePatterns := ["secret"]; includeFilePatterns := [];
     deleteOrphaned := false |}.


(** A source directory and a destination with an orphaned file. *)
Definition orphanTree : node :=
  Dir [("src", Dir [("a.txt", File "new")]);
       ("dst", Dir [("a.txt", File "old"); ("b.txt", File "orphan")])].

Definition orphanRule : FileRule string unit :=
  {| template := None; replace := None; exclude := None;
     excludeFilePatterns := []; includeFilePatterns := [];
     deleteOrphaned := true |}.


(** A directory inside a directory. *)
Definition nestedTree : node :=
  Dir [("a", Dir [("b", Dir [("x.txt", File "x")])])].

End Examples.

(** ** Further notions the properties speak of *)

(** [pat] occurs somewhere in [s]. *)
Fixpoint has_substring (pat s : string) : bool :=
  startsWith pat s
  || match s with
     | EmptyString => false
     | String _ s' => has_substring pat s'
     end.

(** A segment on which the reducer of [parseGitDiffOutput] throws: its
    very first line starts with [+++] but not with [+++ b/], so that the
    line before the header line is [lines[-1]]. *)
Definition badSegment (fileDiff : string) : bool :=
  match split LF fileDiff with
  | first :: _ => startsWith "+++" first && negb (startsWith "+++ b/" first)
  | [] => false
  end.


(** A commit id, a word of a header: not empty and without white space. *)
Definition word (s : string) : bool := no_ws s && negb (String.eqb s "").

(** Further concrete inputs. *)
Module Cases.

(** A text in which a segment starts with the header line itself. *)
Definition brokenDiff : string :=
  "diff --git+++ /dev/null" +:+ LF +:+ "@@ -1 +0,0 @@".

(** Two segments for the same path. *)
Definition twiceDiff : string :=
  "diff --git a/f b/f" +:+ LF +:+ "--- a/f" +:+ LF +:+ "+++ b/f" +:+ LF
  +:+ "first" +:+ LF +:+
  "diff --git a/f b/f" +:+ LF +:+ "--- a/f" +:+ LF +:+ "+++ b/f" +:+ LF
  +:+ "second" +:+ LF.

(** The output of [git cat-file -p] for a commit whose message has a line
    that starts with [tree]. *)
Definition commitText : string :=
  "tree t1" +:+ LF +:+ "parent c0" +:+ LF +:+ LF +:+ "fix" +:+ LF
  +:+ "tree shaking" +:+ LF.

(** A destination below [.github]. *)
Definition workflowsTree : node :=
  Dir [("src", Dir [("ci.yml", File "new")]);
       (".github", Dir [("workflows",
                         Dir [("ci.yml", File "old"); ("stale.yml", File "x")])])].


Definition excludeDocsRule : FileRule string unit :=
  {| template := None; replace := None; exclude := Some ["src/docs/"];
     excludeFilePatterns := []; includeFilePatterns := [];
     deleteOrphaned := false |}.

End Cases.

(** A request that creates or moves a branch. *)
Definition is_ref (c : ApiCall) : bool :=
  match c with
  | CreateRef _ _ _ _ | UpdateRef _ _ _ _ _ => true
  | _ => false
  end.

(** Two states of a [Git] object for the same repository and branches. *)
Definition same_repo (g g' : Git) : Prop :=
  repo_user g' = repo_user g /\ repo_name g' = repo_name g
  /\ workingDir g' = workingDir g /\ baseBranch g' = baseBranch g
  /\ prBranch g' = prBranch g /\ existingPr g' = existingPr g.

(** A method that leaves [this] as it is. *)
Definition reads {A} (m : M A) : Prop := forall g, snd (m g) = g.

(** A platform that rejects every tree. *)
Definition noTrees (history : list ApiCall) (c : ApiCall)
  : result ResponseData :=
  match c with
  | CreateTree _ _ _ _ => Throw "Validation Failed"
  | _ => Replay.github history c
  end.

(** The loop of [Fs.put] over the entries of a directory: the entry [s] is
    passed to [onChild], or made by [create] when there is none. *)
Fixpoint update_entry (s : string) (onChild : node -> result node)
    (create : result node) (es : list (string * node))
  : result (list (string * node)) :=
  match es with
  | [] => new ← create; Ok [(s, new)]
  | (k, c) :: tl =>
      if String.eqb k s
      then c' ← onChild c; Ok ((k, c') :: tl)
      else tl' ← update_entry s onChild create tl; Ok ((k, c) :: tl')
  end.

(** The loop of [copy_item] over the items of a directory. *)
Fixpoint copy_items (filter : node -> string -> option string -> bool)
    (srcItem destItem : string) (es : list (string * node)) (root : node)
  : result node :=
  match es with
  | [] => Ok root
  | (item, child) :: rest =>
      root ← copy_item filter (Path.join srcItem item)
               (Path.join destItem item) child root;
      copy_items filter srcItem destItem rest root
  end.

(** Every regular file of [root] is in [root'], at the same place and with
    the same content. *)
Definition keeps_files (root root' : node) : Prop :=
  forall segs content,
    Fs.descend root segs = Some (File content) ->
    Fs.descend root' segs = Some (File content).

(** A source with a file that the destination has and one that it lacks. *)
Definition mixTree : node :=
  Dir [("src", Dir [("a.txt", File "new"); ("c.txt", File "more")]);
       ("dst", Dir [("a.txt", File "old")])].

Definition noReplaceRule : FileRule string unit :=
  {| template := None; replace := Some false; exclude := None;
     excludeFilePatterns := []; includeFilePatterns := [];
     deleteOrphaned := false |}.

(** No two entries of a directory of the tree have the same name. *)
Fixpoint distinct_names (names : list string) : bool :=
  match names with
  | [] => true
  | k :: rest => negb (includes rest k) && distinct_names rest
  end.

Fixpoint nodup_node (n : node) : bool :=
  match n with
  | File _ => true
  | Dir entries =>
      distinct_names (map fst entries)
      && forallb (fun e => nodup_node (snd e)) entries
  end.

(** ** [Git.commit]: the commit message on the command line *)

(** [message.replace(/'/g, ...)]: every single quote of the message becomes
    the four characters that close the quoted part, give an escaped quote
    and open a quoted part again. *)
Fixpoint escapeQuotes (message : string) : string :=
  match message with
  | EmptyString => EmptyString
  | String a s' =>
      if Ascii.eqb a "'" then "'\''" +:+ escapeQuotes s'
      else String a (escapeQuotes s')
  end.

Section GitCommit.

Variable shell : string -> string -> result string.
Variable config : Config.
(** The input [COMMIT_BODY]; the empty string when it is not set. *)
Variable COMMIT_BODY : string.

Definition commitMessage (msg : option string) : string :=
  let message :=
    match msg with
    | Some m => m
    | None => defaultTitle config
    end in
  if String.eqb COMMIT_BODY "" then message
  else message +:+ LF +:+ LF +:+ COMMIT_BODY.

Definition commitCommand (msg : option string) : string :=
  "git commit -m '" +:+ escapeQuotes (commitMessage msg) +:+ "'".

Definition commit (msg : option string) : M string :=
  g ← this;
  execCmd shell (commitCommand msg) (workingDir g) true.

End GitCommit.

(** The argument that a POSIX shell reads from a word made of single-quoted
    parts and of characters escaped with a backslash: inside single quotes
    every character stands for itself up to the closing quote, outside them
    a backslash makes the next character stand for itself.  [quoted] tells
    whether the reading is inside single quotes.  There is no value for a
    word with a quote left open, nor for one with another character outside
    the quotes. *)
Fixpoint sh_word (quoted : bool) (w : string) : option string :=
  match w with
  | EmptyString => if quoted then None else Some EmptyString
  | String a w' =>
      if quoted then
        if Ascii.eqb a "'" then sh_word false w'
        else String a <$> sh_word true w'
      else if Ascii.eqb a "'" then sh_word true w'
      else if Ascii.eqb a "\" then
        match w' with
        | EmptyString => None
        | String b w'' => String b <$> sh_word false w''
        end
      else None
  end.

(** ** [addTrailingSlash] and [arrayEquals] *)

Definition addTrailingSlash (str : string) : string :=
  if endsWithChar "/" str then str else str +:+ "/".

Definition strict_equal (x y : jsval) : bool :=
  match x, y with
  | Undefined, Undefined => true
  | Null, Null => true
  | Str s, Str t => String.eqb s t
  | _, _ => false
  end.

(** [array.every(callback)], the callback taking the value and its index;
    [i] is the index of the first element of [array]. *)
Fixpoint every {A : Type} (callback : A -> nat -> bool) (i : nat)
    (array : list A) : bool :=
  match array with
  | [] => true
  | value :: rest => callback value i && every callback (S i) rest
  end.

(** An argument of [arrayEquals] is an array, [Some], or another value,
    [None]; the elements are strings, [undefined] or [null]. *)
Definition arrayEquals (array1 array2 : option (list jsval)) : bool :=
  match array1, array2 with
  | Some a1, Some a2 =>
      Nat.eqb (length a1) (length a2)
      && every (fun value i => strict_equal value (default Undefined (at_index a2 i))) 0 a1
  | _, _ => false
  end.

(** ** Indented blocks for [dedent] *)

(** A line of text for an indented block holds no line break and no
    carriage return. *)
Definition noBreak (c : string) : bool :=
  negb (has_char (chr 10) c) && negb (has_char (chr 13) c).

(** A line that starts at the indentation of the block: it is not empty and
    its first character is no tab and no space. *)
Definition flush (c : string) : bool :=
  match c with
  | EmptyString => false
  | String a _ => negb (Dedent.is_blank a)
  end.

(** A line as it stands in the block: empty, or after the indentation. *)
Definition indented (indent c : string) : string :=
  if String.eqb c "" then "" else indent +:+ c.

(** The lines of a block, each after a line break, every line that is not
    empty after [indent]. *)
Fixpoint blockOf (indent : string) (lines : list string) : string :=
  match lines with
  | [] => EmptyString
  | c :: rest => LF +:+ indented indent c +:+ blockOf indent rest
  end.

(** * Properties *)

(** ** Strings *)

Section StringFacts.

Lemma startsWith_refl s : startsWith s s = true.
Proof.
  induction s as [|a s IH]; simpl; [done|].
  by rewrite Ascii.eqb_refl.
Qed.

Lemma startsWith_app p s : startsWith p (p +:+ s) = true.
Proof.
  induction p as [|a p IH]; simpl; [done|].
  by rewrite Ascii.eqb_refl.
Qed.

Lemma startsWith_trans p q s :
  startsWith p q = true -> startsWith q s = true -> startsWith p s = true.
Proof.
  revert q s; induction p as [|a p IH]; intros [|b q] [|c s]; simpl; try done.
  intros [Hab Hp]%andb_true_iff [Hbc Hq]%andb_true_iff.
  apply Ascii.eqb_eq in Hab, Hbc; subst.
  rewrite Ascii.eqb_refl; simpl; eauto.
Qed.

(** Two prefixes of one string are comparable. *)
Lemma startsWith_comparable p q s :
  startsWith p s = true -> startsWith q s = true ->
  startsWith p q = true \/ startsWith q p = true.
Proof.
  revert q s; induction p as [|a p IH]; intros [|b q] [|c s]; simpl;
    try done; auto.
  intros [Hac Hp]%andb_true_iff [Hbc Hq]%andb_true_iff.
  apply Ascii.eqb_eq in Hac, Hbc; subst.
  rewrite Ascii.eqb_refl; simpl; eauto.
Qed.

Lemma append_assoc (a b c : string) : (a +:+ b) +:+ c = a +:+ b +:+ c.
Proof. induction a as [|x a IH]; simpl; [done|by rewrite IH]. Qed.

Lemma append_nil_r (a : string) : a +:+ "" = a.
Proof. induction a as [|x a IH]; simpl; [done|by rewrite IH]. Qed.

Lemma has_char_app c a b :
  has_char c (a +:+ b) = has_char c a || has_char c b.
Proof.
  induction a as [|x a IH]; simpl; [done|].
  by rewrite IH, orb_assoc.
Qed.

(** Splitting at a one-character separator. *)
Lemma split_char_cons c a s :
  split (String c "") (String a s) =
  if Ascii.eqb c a then "" :: split (String c "") s
  else match split (String c "") s with
       | h :: t => String a h :: t
       | [] => [String a ""]
       end.
Proof. unfold split; simpl. by rewrite andb_true_r. Qed.

Lemma split_char_absent c x :
  has_char c x = false -> split (String c "") x = [x].
Proof.
  induction x as [|a x IH]; [done|].
  simpl; intros [Ha Hx]%orb_false_iff.
  rewrite split_char_cons, IH by done.
  by rewrite Ascii.eqb_sym, Ha.
Qed.

Lemma split_char_app c x rest :
  has_char c x = false ->
  split (String c "") (x +:+ String c rest) = x :: split (String c "") rest.
Proof.
  induction x as [|a x IH]; simpl; intros Hx.
  - by rewrite split_char_cons, Ascii.eqb_refl.
  - apply orb_false_iff in Hx as [Ha Hx].
    rewrite split_char_cons, IH by done.
    by rewrite Ascii.eqb_sym, Ha.
Qed.

Lemma replace_first_char_app c rep x y :
  has_char c x = false ->
  replace_first (String c "") rep (x +:+ y)
  = x +:+ replace_first (String c "") rep y.
Proof.
  induction x as [|a x IH]; simpl; intros Hx; [done|].
  apply orb_false_iff in Hx as [Ha Hx].
  rewrite Ascii.eqb_sym, Ha; simpl. by rewrite IH.
Qed.

Lemma replace_first_char_ne c d rep y :
  Ascii.eqb c d = false ->
  replace_first (String c "") rep (String d y)
  = String d (replace_first (String c "") rep y).
Proof. intros H; simpl. by rewrite H. Qed.

Lemma replace_first_char_eq c rep y :
  replace_first (String c "") rep (String c y) = rep +:+ y.
Proof. simpl. by rewrite Ascii.eqb_refl. Qed.

Lemma join_cons sep x y l :
  JsString.join sep (x :: y :: l) = x +:+ sep +:+ JsString.join sep (y :: l).
Proof. reflexivity. Qed.

Lemma join_snoc sep l x :
  l <> [] -> JsString.join sep (l ++ [x]) = JsString.join sep l +:+ sep +:+ x.
Proof.
  induction l as [|a [|b l] IH]; intros Hl; [done|done|].
  change ((a :: b :: l) ++ [x]) with (a :: b :: (l ++ [x])).
  rewrite !join_cons.
  change (b :: l ++ [x]) with ((b :: l) ++ [x]).
  rewrite IH by done. by rewrite !append_assoc.
Qed.

Lemma split_join c l :
  l <> [] -> Forall (fun x => has_char c x = false) l ->
  split (String c "") (JsString.join (String c "") l) = l.
Proof.
  induction l as [|a [|b l] IH]; intros Hl Hall; [done| |].
  - apply split_char_absent. by inversion Hall.
  - rewrite join_cons.
    change (String c "" +:+ JsString.join (String c "") (b :: l))
      with (String c (JsString.join (String c "") (b :: l))).
    inversion Hall; subst.
    rewrite split_char_app by done.
    by rewrite IH.
Qed.

Lemma trimStart_only_ws a x :
  only_ws a = true -> trimStart (a +:+ x) = trimStart x.
Proof.
  induction a as [|c a IH]; simpl; [done|].
  intros [-> Ha]%andb_true_iff. auto.
Qed.

Lemma trimEnd_only_ws b : only_ws b = true -> trimEnd b = "".
Proof.
  induction b as [|c b IH]; simpl; [done|].
  intros [-> Hb]%andb_true_iff. by rewrite IH.
Qed.

Lemma trimEnd_app_ws x b :
  only_ws b = true -> trimEnd (x +:+ b) = trimEnd x.
Proof.
  intros Hb; induction x as [|c x IH]; simpl.
  - by apply trimEnd_only_ws.
  - by rewrite IH.
Qed.

Lemma trimEnd_no_ws f : no_ws f = true -> trimEnd f = f.
Proof.
  induction f as [|c f IH]; simpl; [done|].
  intros [Hc Hf]%andb_true_iff. rewrite IH by done.
  destruct f; [|done]. apply negb_true_iff in Hc. by rewrite Hc.
Qed.

Lemma trimEnd_app_no_ws x f :
  no_ws f = true -> f <> "" -> trimEnd (x +:+ f) = x +:+ f.
Proof.
  intros Hf Hne; induction x as [|c x IH]; simpl.
  - by apply trimEnd_no_ws.
  - rewrite IH. destruct x, f; done.
Qed.

End StringFacts.

Lemma Forall_forallb {A} (f : A -> bool) l :
  forallb f l = true -> Forall (fun x => f x = true) l.
Proof.
  induction l as [|a l IH]; simpl; [constructor|].
  intros [Ha Hl]%andb_true_iff. constructor; auto.
Qed.

(** ** The tree-diff parser *)

Lemma no_ws_has_char c f :
  no_ws f = true -> is_ws c = true -> has_char c f = false.
Proof.
  intros Hf Hc; induction f as [|a f IH]; simpl in *; [done|].
  apply andb_true_iff in Hf as [Ha Hf].
  rewrite IH, orb_false_r by done.
  destruct (Ascii.eqb_spec a c) as [->|]; [|done].
  by rewrite Hc in Ha.
Qed.

Lemma parseTreeDiffLine_fields f1 f2 f3 f4 f5 f6 :
  no_ws f1 = true -> no_ws f2 = true -> no_ws f3 = true ->
  no_ws f4 = true -> no_ws f5 = true -> no_ws f6 = true ->
  parseTreeDiffLine
    (":" +:+ f1 +:+ " " +:+ f2 +:+ " " +:+ f3 +:+ " " +:+ f4 +:+ " " +:+ f5
     +:+ TAB +:+ f6)
  = mkEntry (Str f1) (Str f2) (Str f3) (Str f4) (Str f5) (Str f6).
Proof.
  intros H1 H2 H3 H4 H5 H6.
  assert (Hsp : forall f, no_ws f = true -> has_char " " f = false)
    by (intros; by apply no_ws_has_char).
  assert (Htb : forall f, no_ws f = true -> has_char (chr 9) f = false)
    by (intros; by apply no_ws_has_char).
  unfold parseTreeDiffLine, replace_anchored, TAB; simpl.
  repeat (rewrite replace_first_char_app by auto;
          try rewrite replace_first_char_ne by done).
  rewrite replace_first_char_eq; simpl.
  rewrite !split_char_app, split_char_absent by auto.
  reflexivity.
Qed.

Lemma wf_row_inv r :
  wf_row r = true ->
  exists f1 f2 f3 f4 f5 f6,
    r = [f1; f2; f3; f4; f5; f6] /\ no_ws f1 = true /\ no_ws f2 = true /\
    no_ws f3 = true /\ no_ws f4 = true /\ no_ws f5 = true /\
    no_ws f6 = true /\ f6 <> "".
Proof.
  unfold wf_row.
  destruct r as [|f1 [|f2 [|f3 [|f4 [|f5 [|f6 [|? ?]]]]]]]; try done.
  simpl. rewrite !andb_true_iff, negb_true_iff, String.eqb_neq.
  intros [(H1 & H2 & H3 & H4 & H5 & H6 & _) Hne].
  by exists f1, f2, f3, f4, f5, f6.
Qed.

Lemma parseTreeDiffLine_row r :
  wf_row r = true -> parseTreeDiffLine (lineOf r) = entryOf r.
Proof.
  intros (f1 & f2 & f3 & f4 & f5 & f6 & -> & ? & ? & ? & ? & ? & ? & _)
    %wf_row_inv.
  by apply parseTreeDiffLine_fields.
Qed.

Lemma lineOf_no_LF r : wf_row r = true -> has_char (chr 10) (lineOf r) = false.
Proof.
  intros (f1 & f2 & f3 & f4 & f5 & f6 & -> & ? & ? & ? & ? & ? & ? & _)
    %wf_row_inv.
  unfold lineOf, TAB; simpl.
  repeat (rewrite has_char_app; simpl).
  by rewrite !(no_ws_has_char (chr 10)) by done.
Qed.

Lemma trimEnd_lines pre rows :
  rows <> [] -> Forall (fun r => wf_row r = true) rows ->
  trimEnd (pre +:+ JsString.join LF (map lineOf rows))
  = pre +:+ JsString.join LF (map lineOf rows).
Proof.
  revert pre; induction rows as [|r [|r2 rows] IH]; intros pre Hne Hall;
    [done| |].
  - inversion Hall as [|? ? Hr _]; subst.
    apply wf_row_inv in Hr
      as (f1 & f2 & f3 & f4 & f5 & f6 & -> & _ & _ & _ & _ & _ & H6 & Hne6).
    simpl map; simpl JsString.join. unfold lineOf; simpl nth.
    rewrite <- !append_assoc. by apply trimEnd_app_no_ws.
  - inversion Hall; subst.
    assert (Hj : JsString.join LF (map lineOf (r :: r2 :: rows))
                 = lineOf r +:+ LF +:+ JsString.join LF (map lineOf (r2 :: rows)))
      by reflexivity.
    rewrite Hj, <- !append_assoc. by apply IH.
Qed.

Lemma trim_lines before after rows :
  rows <> [] -> Forall (fun r => wf_row r = true) rows ->
  only_ws before = true -> only_ws after = true ->
  trim (before +:+ JsString.join LF (map lineOf rows) +:+ after)
  = JsString.join LF (map lineOf rows).
Proof.
  intros Hne Hall Hb Ha. unfold trim.
  rewrite trimStart_only_ws by done.
  assert (Hstart : exists rest,
             JsString.join LF (map lineOf rows) = String ":" rest).
  { destruct rows as [|r [|r2 rows]]; [done| |]; simpl; eauto. }
  destruct Hstart as [rest Hstart].
  assert (Hts : trimStart (JsString.join LF (map lineOf rows) +:+ after)
                = JsString.join LF (map lineOf rows) +:+ after)
    by (by rewrite Hstart).
  rewrite Hts, trimEnd_app_ws by done.
  by apply (trimEnd_lines "").
Qed.

Lemma parseTreeDiff_lines rows :
  rows <> [] -> Forall (fun r => wf_row r = true) rows ->
  parseTreeDiff (JsString.join LF (map lineOf rows)) = map entryOf rows.
Proof.
  intros Hne Hall. unfold parseTreeDiff, LF.
  rewrite split_join.
  - rewrite map_map. apply map_ext_Forall.
    eapply Forall_impl; [exact Hall|]. intros r Hr.
    by apply parseTreeDiffLine_row.
  - by destruct rows.
  - apply Forall_map. eapply Forall_impl; [exact Hall|]. intros r Hr.
    by apply lineOf_no_LF.
Qed.

(** C2, as stated, fails: on the input
    ["  :100644 100644 abc123 def456 M\tfoo/bar.txt\n"] the parser returns one
    entry whose [newBlob] is ["abc123"] and whose [previousBlob] is
    ["def456"], not the entry with [previousBlob] ["abc123"] and [newBlob]
    ["def456"]; without the trimming of [execCmd] it returns two entries. *)
Lemma getTreeDiff_example_not_swapped :
  fst (getTreeDiff (Examples.printing Examples.treeDiffInput) "t1" "t0"
         Replay.session) <> Ok [Examples.swappedEntry]
  /\ parseTreeDiff Examples.treeDiffInput <> [Examples.swappedEntry].
Proof. split; vm_compute; discriminate. Qed.

(** C2 (amended): when [git diff-tree] prints one line per row, each made of
    the six columns of the row (a colon, then new mode, previous mode, new
    blob, previous blob and change separated by blanks, then a tab and the
    path), with white space around the whole, [getTreeDiff] returns one
    entry per row with the columns in this order: the first mode and blob
    are [newMode] and [newBlob], the second are [previousMode] and
    [previousBlob]. On the input of the specification this is one entry with
    [newMode] and [previousMode] ["100644"], [newBlob] ["abc123"],
    [previousBlob] ["def456"], [change] ["M"], [path] ["foo/bar.txt"]. *)
Theorem getTreeDiff_rows shell g ref diff before after rows :
  rows <> [] -> Forall (fun r => wf_row r = true) rows ->
  only_ws before = true -> only_ws after = true ->
  shell ("git diff-tree " +:+ ref +:+ " " +:+ diff +:+ " -r") (workingDir g)
  = Ok (before +:+ JsString.join LF (map lineOf rows) +:+ after) ->
  getTreeDiff shell ref diff g = (Ok (map entryOf rows), g).
Proof.
  intros Hne Hall Hb Ha Hsh.
  unfold getTreeDiff, execCmd, lift, this, mbind, M_bind, mret, M_ret.
  rewrite Hsh; simpl.
  by rewrite trim_lines, parseTreeDiff_lines.
Qed.

Lemma getTreeDiff_rows_example :
  getTreeDiff (Examples.printing Examples.treeDiffInput) "t1" "t0"
    Replay.session
  = (Ok [ {| newMode := Str "100644";
             previousMode := Str "100644";
             newBlob := Str "abc123";
             previousBlob := Str "def456";
             change := Str "M";
             path := Str "foo/bar.txt" |} ], Replay.session).
Proof.
  apply (getTreeDiff_rows _ _ _ _ "  " LF [Examples.modifiedRow]).
  - discriminate.
  - repeat constructor.
  - reflexivity.
  - reflexivity.
  - reflexivity.
Defined.

(** ** The unified-diff parser *)

Lemma findIndex_Some {A} (p : A -> bool) l i :
  findIndex p l = Some i -> exists x, at_index l i = Some x /\ p x = true.
Proof.
  revert i; induction l as [|a l IH]; intros i; simpl; [done|].
  destruct (p a) eqn:Hp.
  - intros [= <-]. eauto.
  - destruct (findIndex p l) as [j|]; simpl; [|done].
    intros [= <-]. by apply IH.
Qed.

Lemma at_index_before {A} (l : list A) i x :
  at_index l (S i) = Some x -> is_Some (at_index l i).
Proof.
  unfold at_index. revert i; induction l as [|a l IH]; intros [|i]; simpl;
    try done; eauto.
Qed.

Lemma parseFileDiff_textSegment m seg :
  textSegment seg = true -> parseFileDiff m seg = Ok (addSegment m seg).
Proof.
  unfold textSegment, parseFileDiff, addSegment, diffPath, diffBody,
    headerIndex.
  destruct (findIndex (startsWith "+++") (split LF seg)) as [i|] eqn:Hi;
    [|done].
  destruct (findIndex_Some _ _ _ Hi) as (header & Hh & _).
  cbn [mbind option_bind]. rewrite Hh.
  cbn [mbind option_bind default]. unfold id.
  destruct (startsWith "+++ b/" header); [done|].
  destruct i as [|before]; [done|]. intros _.
  destruct (at_index_before _ _ _ Hh) as [previous Hp].
  by rewrite Hp.
Qed.







(** ** The filter predicate of [copy] *)

Section FilterFacts.

Context {pattern context : Type}.
Variable str_match : string -> pattern -> bool.
Variable render : string -> context -> string.
Implicit Types (file : FileRule pattern context) (fsv : FsView).


Lemma filterFunc_no_guard file fsv srcFile destFile :
  replace file <> Some false ->
  filterFunc str_match fsv file srcFile destFile
  = filterChecks str_match file srcFile.
Proof.
  unfold filterFunc. by destruct (replace file) as [[|]|].
Qed.



End FilterFacts.

(** C3, as stated, fails: with [replace] false and no file or directory at
    the destination, a path that matches an entry of
    [excludeFilePatterns] passes the filter, and [copy] copies it. *)
Lemma filterFunc_new_file_not_skipped :
  replace Examples.keepRule = Some false
  /\ Fs.existsSync Examples.freshTree "dst/secret.txt" = false
  /\ existsb (Examples.occurs "src/secret.txt")
       (excludeFilePatterns Examples.keepRule) = true
  /\ filterFunc Examples.occurs (view_of Examples.freshTree) Examples.keepRule
       "src/secret.txt" (Some "dst/secret.txt") = true
  /\ (root ← copy Examples.occurs Examples.plain Examples.freshTree
                 "src" "dst" true Examples.keepRule;
      Fs.readFile root "dst/secret.txt") = Ok "s".
Proof. repeat split; vm_compute; reflexivity. Qed.

(** C3 (amended): when [replace] is false and there is neither a file nor
    a directory at the destination, the filter returns true at once and
    the exclusion checks are not evaluated: the path is copied whatever
    [exclude], [excludeFilePatterns] and [includeFilePatterns] hold. *)
Theorem filterFunc_replace_false_missing {pattern context : Type}
    (str_match : string -> pattern -> bool)
    (file : FileRule pattern context) root srcFile destFile :
  replace file = Some false ->
  Fs.existsSync root destFile = false ->
  filterFunc str_match (view_of root) file srcFile (Some destFile) = true
  /\ forall content,
       copy_item (fun root => filterFunc str_match (view_of root) file)
         srcFile destFile (File content) root
       = Fs.outputFile root destFile content.
Proof.
  intros Hr Hmissing.
  assert (Hfilter : filterFunc str_match (view_of root) file srcFile
                      (Some destFile) = true).
  { unfold filterFunc. rewrite Hr. cbn [view_of lstat_isDirectory].
    unfold Fs.stat_isDirectory. unfold Fs.existsSync in Hmissing.
    by destruct (Fs.resolve root destFile) as [[?|?]|]. }
  split; [exact Hfilter|].
  intros content. cbn [copy_item]. by rewrite Hfilter.
Qed.

Lemma filterFunc_replace_false_missing_example :
  filterFunc Examples.occurs (view_of Examples.freshTree) Examples.keepRule
    "src/secret.txt" (Some "dst/secret.txt") = true
  /\ forall content,
       copy_item
         (fun root => filterFunc Examples.occurs (view_of root)
                        Examples.keepRule)
         "src/secret.txt" "dst/secret.txt" (File content) Examples.freshTree
       = Fs.outputFile Examples.freshTree "dst/secret.txt" content.
Proof.
  apply (filterFunc_replace_false_missing Examples.occurs Examples.keepRule
           Examples.freshTree "src/secret.txt" "dst/secret.txt").
  - reflexivity.
  - vm_compute. reflexivity.
Defined.




(** ** Paths *)

Section PathFacts.

Lemma plain_name_inv s :
  plain_name s = true ->
  s <> "" /\ s <> "." /\ s <> ".." /\ has_char "/" s = false.
Proof.
  unfold plain_name.
  rewrite !andb_true_iff, !negb_true_iff, !String.eqb_neq. tauto.
Qed.

Lemma norm_step_plain allow stack s :
  plain_name s = true -> Path.norm_step allow stack s = s :: stack.
Proof.
  intros (H1 & H2 & H3 & _)%plain_name_inv. unfold Path.norm_step.
  apply String.eqb_neq in H1, H2, H3. by rewrite H1, H2, H3.
Qed.

Lemma dirPath_pieces absolute segs slash :
  segs <> [] ->
  dirPath absolute segs slash = JsString.join "/" (pieces absolute segs slash).
Proof.
  intros Hne. unfold dirPath, pieces.
  destruct absolute, slash; simpl.
  - rewrite join_snoc by done. by destruct segs.
  - rewrite app_nil_r, append_nil_r. by destruct segs.
  - by rewrite join_snoc.
  - by rewrite app_nil_r, append_nil_r.
Qed.

Lemma fold_norm_step_plain allow segs stack :
  Forall (fun s => plain_name s = true) segs ->
  fold_left (Path.norm_step allow) segs stack = rev segs ++ stack.
Proof.
  revert stack; induction segs as [|s segs IH]; intros stack Hall; [done|].
  inversion Hall; subst. simpl.
  rewrite norm_step_plain, IH by done. by rewrite <- app_assoc.
Qed.

Lemma fold_norm_step_pieces allow absolute segs slash name :
  Forall (fun s => plain_name s = true) segs -> plain_name name = true ->
  fold_left (Path.norm_step allow) (pieces absolute segs slash ++ [name]) []
  = rev (segs ++ [name]).
Proof.
  intros Hsegs Hname. unfold pieces.
  rewrite !fold_left_app.
  assert (Hpre : fold_left (Path.norm_step allow)
                   (if absolute then [""] else []) [] = [])
    by (by destruct absolute).
  rewrite Hpre, (fold_norm_step_plain _ segs) by done.
  assert (Hpost : forall st, fold_left (Path.norm_step allow)
                    (if slash then [""] else []) st = st)
    by (intros; by destruct slash).
  rewrite Hpost. simpl. rewrite norm_step_plain by done.
  by rewrite app_nil_r, rev_app_distr.
Qed.

Lemma pieces_no_slash absolute segs slash name :
  Forall (fun s => plain_name s = true) segs -> plain_name name = true ->
  Forall (fun x => has_char "/" x = false)
    (pieces absolute segs slash ++ [name]).
Proof.
  intros Hsegs Hname. unfold pieces.
  rewrite !Forall_app. repeat split.
  - destruct absolute; repeat constructor.
  - eapply Forall_impl; [exact Hsegs|]. intros s Hs.
    by apply plain_name_inv in Hs as (_ & _ & _ & ?).
  - destruct slash; repeat constructor.
  - repeat constructor. by apply plain_name_inv in Hname as (_ & _ & _ & ?).
Qed.

Lemma last_char_app x y : y <> "" -> last_char (x +:+ y) = last_char y.
Proof.
  intros Hy; induction x as [|a x IH]; [done|].
  simpl. rewrite IH. destruct (x +:+ y) eqn:E; [|done].
  destruct x, y; done.
Qed.

Lemma endsWithChar_absent c s : has_char c s = false -> endsWithChar c s = false.
Proof.
  unfold endsWithChar. induction s as [|a s IH]; [done|].
  simpl. intros [Ha Hs]%orb_false_iff.
  destruct s; [done|]. by apply IH.
Qed.

Lemma startsWith_char c a s :
  startsWith (String c "") (String a s) = Ascii.eqb c a.
Proof. simpl. apply andb_true_r. Qed.

Lemma startsWith_slash_plain s t :
  plain_name s = true -> startsWith "/" (s +:+ t) = false.
Proof.
  intros (Hne & _ & _ & Hs)%plain_name_inv.
  destruct s as [|a s]; [done|].
  change (String a s +:+ t) with (String a (s +:+ t)).
  rewrite startsWith_char.
  change (has_char "/" (String a s))
    with (Ascii.eqb a "/" || has_char "/" s) in Hs.
  apply orb_false_iff in Hs as [Ha _].
  by rewrite Ascii.eqb_sym.
Qed.

Lemma join_plain_nonempty segs :
  segs <> [] -> Forall (fun s => plain_name s = true) segs ->
  JsString.join "/" segs <> "".
Proof.
  intros Hne Hall. destruct segs as [|s [|s2 segs]]; [done| |];
    inversion Hall as [|? ? Hs _]; subst;
    apply plain_name_inv in Hs as (Hs & _); simpl; by destruct s.
Qed.

(** Joining a plain name to a directory path in normal form appends it. *)
Lemma join_dirPath absolute segs slash name :
  segs <> [] -> Forall (fun s => plain_name s = true) segs ->
  plain_name name = true ->
  Path.join (dirPath absolute segs slash) name
  = dirPath absolute (segs ++ [name]) false.
Proof.
  intros Hne Hsegs Hname.
  pose proof (plain_name_inv _ Hname) as (Hn1 & _ & _ & Hn4).
  assert (Hd : dirPath absolute segs slash <> "").
  { unfold dirPath. pose proof (join_plain_nonempty segs Hne Hsegs).
    destruct absolute; [done|]. simpl. by destruct (JsString.join "/" segs). }
  assert (Hx : dirPath absolute segs slash +:+ "/" +:+ name
               = JsString.join "/" (pieces absolute segs slash ++ [name])).
  { rewrite join_snoc, dirPath_pieces by (try done; unfold pieces;
      destruct absolute, segs; done). done. }
  unfold Path.join.
  apply String.eqb_neq in Hd, Hn1. rewrite Hd, Hn1.
  unfold Path.normalize, Path.normalizeString, Path.norm_segments.
  assert (Hnz : String.eqb (dirPath absolute segs slash +:+ "/" +:+ name) ""
                = false).
  { apply String.eqb_neq. apply String.eqb_neq in Hd.
    by destruct (dirPath absolute segs slash). }
  rewrite Hnz.
  assert (Habs : startsWith "/" (dirPath absolute segs slash +:+ "/" +:+ name)
                 = absolute).
  { unfold dirPath. destruct absolute; [done|]. simpl.
    destruct segs as [|s [|s2 segs]]; [done| |];
      inversion Hsegs; subst; simpl; rewrite ?append_assoc;
      by apply startsWith_slash_plain. }
  assert (Htr : endsWithChar "/"
                  (dirPath absolute segs slash +:+ "/" +:+ name) = false).
  { rewrite <- append_assoc. unfold endsWithChar.
    rewrite last_char_app by (by apply String.eqb_neq).
    by apply endsWithChar_absent. }
  rewrite Habs, Htr, Hx.
  rewrite split_join
    by (try (by apply pieces_no_slash);
        unfold pieces; destruct absolute, segs; done).
  rewrite fold_norm_step_pieces, rev_involutive by done.
  assert (Hq : String.eqb (JsString.join "/" (segs ++ [name])) "" = false).
  { apply String.eqb_neq, join_plain_nonempty.
    - by destruct segs.
    - apply Forall_app. split; [done|by repeat constructor]. }
  rewrite Hq. unfold dirPath. rewrite append_nil_r.
  by destruct absolute.
Qed.

Lemma dirPath_below absolute segs name slash :
  segs <> [] ->
  startsWith (dirPath absolute segs true)
    (dirPath absolute (segs ++ [name]) slash) = true.
Proof.
  intros Hne. unfold dirPath.
  rewrite join_snoc by done.
  replace ((if absolute then "/" else "")
           +:+ (JsString.join "/" segs +:+ "/" +:+ name)
           +:+ (if slash then "/" else ""))
    with (((if absolute then "/" else "") +:+ JsString.join "/" segs +:+ "/")
          +:+ name +:+ (if slash then "/" else ""))
    by (by rewrite !append_assoc).
  apply startsWith_app.
Qed.

Lemma dirPath_slash absolute segs slash :
  startsWith (dirPath absolute segs slash) (dirPath absolute segs true) = true.
Proof.
  unfold dirPath. destruct slash; [apply startsWith_refl|].
  rewrite append_nil_r.
  rewrite <- (append_assoc _ _ "/"). apply startsWith_app.
Qed.

End PathFacts.

(** ** [walk] *)

Section WalkFacts.

(** Induction on trees, through the entries of a directory. *)
Lemma node_ind' (P : node -> Prop) :
  (forall content, P (File content)) ->
  (forall entries, Forall (fun e => P (snd e)) entries -> P (Dir entries)) ->
  forall n, P n.
Proof.
  intros HFile HDir. fix IH 1. intros [content|entries].
  - apply HFile.
  - apply HDir. induction entries as [|e entries IHentries].
    + constructor.
    + constructor; [apply IH|apply IHentries].
Qed.

Lemma walk_entries_cons dir file child rest fileList :
  walk_entries dir ((file, child) :: rest) fileList
  = walk_entries dir rest
      match child with
      | Dir _ => walk_node (Path.join dir file) child fileList
      | File _ => fileList ++ [Path.join dir file]
      end.
Proof. reflexivity. Qed.

(** The listing is appended to the array passed in. *)
Lemma walk_node_app n :
  forall dir fileList,
    walk_node dir n fileList = fileList ++ walk_node dir n [].
Proof.
  induction n as [content|entries IH] using node_ind'; intros dir fileList.
  - simpl. by rewrite app_nil_r.
  - change (walk_entries dir entries fileList
            = fileList ++ walk_entries dir entries []).
    revert fileList; induction IH as [|[file child] rest Hchild _ IHrest];
      intros fileList.
    + simpl. by rewrite app_nil_r.
    + rewrite !walk_entries_cons. simpl in Hchild.
      rewrite IHrest. symmetry. rewrite IHrest. symmetry.
      rewrite app_assoc. f_equal.
      destruct child as [content|sub]; [done|].
      apply Hchild.
Qed.

(** The traversal is depth first: the files below an entry are listed,
    in the order of [readdir], before the next entry is looked at. *)
Lemma walk_entries_visit dir entries :
  walk_entries dir entries [] = concat (map (visit dir) entries).
Proof.
  induction entries as [|[file child] rest IH]; [done|].
  rewrite walk_entries_cons.
  change (walk_entries dir rest
            match child with
            | Dir _ => walk_node (Path.join dir file) child []
            | File _ => [] ++ [Path.join dir file]
            end
          = visit dir (file, child) ++ concat (map (visit dir) rest)).
  rewrite <- IH.
  fold (walk_entries dir rest
          match child with
          | Dir _ => walk_node (Path.join dir file) child []
          | File _ => [] ++ [Path.join dir file]
          end).
  unfold walk_entries at 1. rewrite walk_node_app. f_equal.
  by destruct child.
Qed.

Lemma wf_node_entries entries :
  wf_node (Dir entries) = true ->
  Forall (fun e => plain_name (fst e) = true /\ wf_node (snd e) = true)
    entries.
Proof.
  simpl. intros H. apply Forall_forall. intros e He.
  apply list_elem_of_In in He.
  rewrite forallb_forall in H. by apply andb_true_iff, H.
Qed.

(** Every path listed below a directory in normal form starts with the
    path of the directory and a slash. *)
Lemma walk_node_below n :
  forall absolute segs slash,
    wf_node n = true -> segs <> [] ->
    Forall (fun s => plain_name s = true) segs ->
    Forall (fun p => startsWith (dirPath absolute segs true) p = true)
      (walk_node (dirPath absolute segs slash) n []).
Proof.
  induction n as [content|entries IH] using node_ind';
    intros absolute segs slash Hwf Hne Hsegs; [constructor|].
  change (Forall (fun p => startsWith (dirPath absolute segs true) p = true)
            (walk_entries (dirPath absolute segs slash) entries [])).
  rewrite walk_entries_visit.
  apply wf_node_entries in Hwf.
  apply Forall_concat, Forall_map.
  induction IH as [|[file child] rest Hchild _ IHrest]; [constructor|].
  inversion Hwf as [|? ? [Hname Hwfc] Hwfrest]; subst.
  constructor; [|by apply IHrest].
  simpl in *. unfold visit; simpl.
  rewrite join_dirPath by done.
  destruct child as [content|sub].
  - repeat constructor. by apply dirPath_below.
  - specialize (Hchild absolute (segs ++ [file]) false Hwfc).
    eapply Forall_impl.
    + apply Hchild; [by destruct segs|].
      apply Forall_app. split; [done|by repeat constructor].
    + intros p Hp. simpl in Hp.
      eapply startsWith_trans; [|exact Hp].
      by apply dirPath_below.
Qed.

Lemma walk_inv root dir l :
  walk root dir = Ok l ->
  exists entries,
    Fs.resolve root dir = Some (Dir entries)
    /\ l = walk_entries dir entries [].
Proof.
  unfold walk. destruct (Fs.resolve root dir) as [[content|entries]|];
    try done.
  intros [= <-]. eauto.
Qed.

Lemma wf_lookup_entry name entries child :
  wf_node (Dir entries) = true ->
  Fs.lookup_entry name entries = Some child -> wf_node child = true.
Proof.
  intros Hwf%wf_node_entries.
  induction Hwf as [|[k c] rest [_ Hc] _ IH]; simpl; [done|].
  destruct (String.eqb k name); [by intros [= <-]|exact IH].
Qed.

Lemma wf_descend segs :
  forall n m,
    wf_node n = true -> Fs.descend n segs = Some m -> wf_node m = true.
Proof.
  induction segs as [|s segs IH]; intros n m Hwf; simpl.
  - by intros [= <-].
  - destruct n as [content|entries]; [done|].
    destruct (Fs.lookup_entry s entries) as [child|] eqn:Hchild; [|done].
    apply IH. by eapply wf_lookup_entry.
Qed.

Lemma wf_resolve root p n :
  wf_node root = true -> Fs.resolve root p = Some n -> wf_node n = true.
Proof.
  unfold Fs.resolve. destruct (String.eqb p ""); [done|].
  intros Hwf. by apply wf_descend.
Qed.

End WalkFacts.

(** C9, as stated, fails: the paths that [walk] lists for the directory
    [.] do not begin with [.], since [path.join] normalises them; and the
    listings of the two distinct directories [a] and [a/b] share the file
    [a/b/x.txt]. *)
Lemma walk_not_always_prefixed_nor_disjoint :
  walk Examples.orphanTree "./src" = Ok ["src/a.txt"]
  /\ startsWith "./src" "src/a.txt" = false
  /\ walk Examples.nestedTree "a" = Ok ["a/b/x.txt"]
  /\ walk Examples.nestedTree "a/b" = Ok ["a/b/x.txt"].
Proof. repeat split; vm_compute; reflexivity. Qed.

(** C9 (amended): for a directory path [dir] in normal form (names
    joined by slashes, absolute or relative, with or without a slash at
    its end), [walk] lists the files below each entry depth first in the
    order of [readdir], and each element of the list begins with [dir]
    itself: the list holds paths joined to [dir], not paths relative to
    it. So for two such directories neither of which is the other or
    lies below it, the two listings share no element, also when the
    directories hold files of the same names. *)
Theorem walk_prefixed root absolute segs slash absolute' segs' slash' l l' :
  let dir := dirPath absolute segs slash in
  let dir' := dirPath absolute' segs' slash' in
  wf_node root = true ->
  segs <> [] -> Forall (fun s => plain_name s = true) segs ->
  segs' <> [] -> Forall (fun s => plain_name s = true) segs' ->
  walk root dir = Ok l ->
  walk root dir' = Ok l' ->
  (exists entries,
      Fs.resolve root dir = Some (Dir entries)
      /\ l = concat (map (visit dir) entries))
  /\ Forall (fun p => startsWith dir p = true) l
  /\ (startsWith (dirPath absolute segs true) (dirPath absolute' segs' true)
        = false ->
      startsWith (dirPath absolute' segs' true) (dirPath absolute segs true)
        = false ->
      forall p, In p l -> ~ In p l').
Proof.
  intros dir dir' Hwf Hne Hsegs Hne' Hsegs' Hl Hl'.
  apply walk_inv in Hl as (entries & Hres & ->).
  apply walk_inv in Hl' as (entries' & Hres' & ->).
  pose proof (walk_node_below (Dir entries) absolute segs slash
                (wf_resolve _ _ _ Hwf Hres) Hne Hsegs) as Hbelow.
  pose proof (walk_node_below (Dir entries') absolute' segs' slash'
                (wf_resolve _ _ _ Hwf Hres') Hne' Hsegs') as Hbelow'.
  fold dir in Hbelow. fold dir' in Hbelow'.
  fold (walk_entries dir entries []) in Hbelow.
  fold (walk_entries dir' entries' []) in Hbelow'.
  split; [|split].
  - exists entries. split; [done|apply walk_entries_visit].
  - eapply Forall_impl; [exact Hbelow|]. intros p Hp. simpl in Hp.
    eapply startsWith_trans; [|exact Hp]. apply dirPath_slash.
  - intros Hno Hno' p Hin Hin'.
    rewrite Forall_forall in Hbelow, Hbelow'.
    apply list_elem_of_In in Hin, Hin'.
    destruct (startsWith_comparable _ _ _ (Hbelow p Hin) (Hbelow' p Hin'))
      as [H|H]; congruence.
Qed.

Lemma walk_prefixed_example :
  (exists entries,
      Fs.resolve Examples.orphanTree "src/" = Some (Dir entries)
      /\ ["src/a.txt"] = concat (map (visit "src/") entries))
  /\ Forall (fun p => startsWith "src/" p = true) ["src/a.txt"]
  /\ forall p, In p ["src/a.txt"] -> ~ In p ["dst/a.txt"; "dst/b.txt"].
Proof.
  destruct (walk_prefixed Examples.orphanTree false ["src"] true
              false ["dst"] true ["src/a.txt"] ["dst/a.txt"; "dst/b.txt"])
    as (Hdfs & Hpre & Hdis); try reflexivity; try discriminate;
    try (by repeat constructor).
  split; [exact Hdfs|]. split; [exact Hpre|].
  apply Hdis; reflexivity.
Defined.

(** ** [copy] *)

(** C1: the code does not do what the claim says. With [a.txt] in the
    source directory, [a.txt] and [b.txt] in the destination directory and
    [deleteOrphaned] set, [copy] leaves [b.txt] in place: [walk] lists
    [src/a.txt] for the source and [dst/a.txt], [dst/b.txt] for the
    destination, no destination path is found in the source listing, and
    [fs.remove] is called on [dst/dst/a.txt] and [dst/dst/b.txt], which do
    not exist. *)
Lemma copy_keeps_orphan :
  walk Examples.orphanTree "src" = Ok ["src/a.txt"]
  /\ walk Examples.orphanTree "dst" = Ok ["dst/a.txt"; "dst/b.txt"]
  /\ Path.join "dst" "dst/b.txt" = "dst/dst/b.txt"
  /\ copy Examples.occurs Examples.plain Examples.orphanTree "src" "dst" true
       Examples.orphanRule
     = Ok (Dir [("src", Dir [("a.txt", File "new")]);
                ("dst", Dir [("a.txt", File "new"); ("b.txt", File "orphan")])])
  /\ copy Examples.occurs Examples.plain Examples.orphanTree "src/" "dst/" true
       Examples.orphanRule
     = Ok (Dir [("src", Dir [("a.txt", File "new")]);
                ("dst", Dir [("a.txt", File "new"); ("b.txt", File "orphan")])]).
Proof. repeat split; vm_compute; reflexivity. Qed.




(** ** The class [Git] *)

Section GitFacts.

Variable shell : string -> string -> result string.
Variable github : list ApiCall -> ApiCall -> result ResponseData.
Variable config : Config.

Lemma bind_run {A B} (m : M A) (k : A -> M B) g :
  (m ≫= k) g = match m g with
               | (Ok a, g') => k a g'
               | (Throw e, g') => (Throw e, g')
               end.
Proof. reflexivity. Qed.

Lemma request_run c g :
  request github c g = (github (requests g) c, add_request c g).
Proof. reflexivity. Qed.

Lemma grows_ret {A} (a : A) : grows (mret a).
Proof. intros g. exists []. simpl. by rewrite app_nil_r. Qed.

Lemma grows_throw {A} e : grows (@throw A e).
Proof. intros g. exists []. simpl. by rewrite app_nil_r. Qed.

Lemma grows_this : grows this.
Proof. intros g. exists []. simpl. by rewrite app_nil_r. Qed.

Lemma grows_lift {A} (r : result A) : grows (lift r).
Proof. intros g. exists []. simpl. by rewrite app_nil_r. Qed.

Lemma grows_execCmd command wd trimResult :
  grows (execCmd shell command wd trimResult).
Proof. apply grows_lift. Qed.

Lemma grows_modify_sha sha : grows (modify (set_lastCommitSha sha)).
Proof. intros g. exists []. simpl. by rewrite app_nil_r. Qed.

Lemma grows_request c : grows (request github c).
Proof. intros g. by exists [c]. Qed.

Lemma grows_bind {A B} (m : M A) (k : A -> M B) :
  grows m -> (forall a, grows (k a)) -> grows (m ≫= k).
Proof.
  intros Hm Hk g. rewrite bind_run.
  destruct (Hm g) as [rest Hrest].
  destruct (m g) as [[a|e] g1]; simpl in *.
  - destruct (Hk a g1) as [rest' Hrest'].
    exists (rest ++ rest'). by rewrite Hrest', Hrest, app_assoc.
  - eauto.
Qed.

Lemma grows_try_catch {A} (m : M A) handler :
  grows m -> (forall e, grows (handler e)) -> grows (try_catch m handler).
Proof.
  intros Hm Hh g. unfold try_catch.
  destruct (Hm g) as [rest Hrest].
  destruct (m g) as [[a|e] g1]; simpl in *.
  - eauto.
  - destruct (Hh e g1) as [rest' Hrest'].
    exists (rest ++ rest'). by rewrite Hrest', Hrest, app_assoc.
Qed.

Lemma grows_forEach {A} (f : A -> M unit) l :
  (forall a, grows (f a)) -> grows (forEach f l).
Proof.
  intros Hf. induction l as [|a l IH]; simpl.
  - apply grows_ret.
  - apply grows_bind; auto.
Qed.

Lemma grows_promise_all {A} (l : list (M A)) :
  Forall grows l -> grows (promise_all l).
Proof.
  induction 1 as [|m l Hm _ IH]; simpl.
  - apply grows_ret.
  - intros g. destruct (Hm g) as [rest Hrest].
    destruct (m g) as [[a|e] g1]; simpl in *.
    + destruct (IH g1) as [rest' Hrest'].
      exists (rest ++ rest').
      destruct (promise_all l g1) as [[l'|e] g2]; simpl in *;
        by rewrite Hrest', Hrest, app_assoc.
    + destruct (IH g1) as [rest' Hrest'].
      exists (rest ++ rest'). by rewrite Hrest', Hrest, app_assoc.
Qed.

Create HintDb grows.
#[local] Hint Resolve grows_ret grows_throw grows_this grows_lift grows_execCmd
  grows_modify_sha grows_request grows_bind grows_try_catch grows_forEach
  grows_promise_all : grows.

Lemma grows_getTreeId commitSha : grows (getTreeId shell commitSha).
Proof.
  unfold getTreeId. apply grows_bind; [auto with grows|]. intros g.
  apply grows_bind; [auto with grows|]. intros out.
  destruct (find _ _); auto with grows.
Qed.

Lemma grows_uploadGitHubBlob blob : grows (uploadGitHubBlob shell github blob).
Proof. unfold uploadGitHubBlob. auto 10 with grows. Qed.

Lemma grows_createGithubCommit commitSha :
  grows (createGithubCommit shell github commitSha).
Proof.
  unfold createGithubCommit, getCommitMessage, getTreeDiff.
  repeat (apply grows_bind; [auto 10 using grows_getTreeId with grows|];
          intros ?).
  - apply grows_promise_all, Forall_map, Forall_forall.
    intros e _. apply grows_uploadGitHubBlob.
  - auto with grows.
Qed.

Lemma grows_replayCommits commits :
  grows (replayCommits shell github config commits).
Proof.
  unfold replayCommits.
  auto 10 using grows_createGithubCommit with grows.
Qed.

End GitFacts.

(** C8: [createOrUpdatePr] sends one request. With a pull request at
    hand it is an update of that pull request with the body built from
    [changedFiles] and the default title
    [COMMIT_PREFIX synced file(s) with GITHUB_REPOSITORY], whatever the
    argument [title] is; without one it is the creation of a pull request
    whose title is the argument [title], or the same default title when
    it is [undefined]. *)
Theorem createOrUpdatePr_request github config changedFiles title g :
  requests (snd (createOrUpdatePr github config changedFiles title g))
  = requests g ++
    [ match existingPr g with
      | Some pr =>
          PullsUpdate (repo_user g) (repo_name g)
            (COMMIT_PREFIX config +:+ " synced file(s) with "
             +:+ GITHUB_REPOSITORY config)
            (data_number pr) (prBody config changedFiles)
      | None =>
          PullsCreate (repo_user g) (repo_name g)
            match title with
            | Some title => title
            | None => COMMIT_PREFIX config +:+ " synced file(s) with "
                      +:+ GITHUB_REPOSITORY config
            end
            (prBody config changedFiles)
            (headOwner config g +:+ ":" +:+ prBranch g) (baseBranch g)
      end ].
Proof.
  unfold createOrUpdatePr. rewrite bind_run. simpl.
  destruct (existingPr g) as [pr|].
  - by rewrite request_run.
  - rewrite bind_run, request_run.
    destruct (github (requests g) _) as [data|e]; [|done].
    by destruct title.
Qed.

(** C6: with pull requests enabled, [createGithubVerifiedCommits] first
    asks for the branch [refs/heads/prBranch] at the [lastCommitSha] it
    starts with, and every other request comes after this one. When the
    platform rejects it with the message [Reference already exists], the
    error is swallowed: the commits are replayed as after a success. Any
    other rejection is thrown again, and nothing else is requested. *)
Theorem createGithubVerifiedCommits_ref shell github config g commits :
  SKIP_PR config = false ->
  getCommitsToPush shell g = (Ok commits, g) ->
  (exists rest,
      requests (snd (createGithubVerifiedCommits shell github config g))
      = requests g
        ++ CreateRef (repo_user g) (repo_name g) (lastCommitSha g)
             ("refs/heads/" +:+ prBranch g) :: rest)
  /\ (forall message,
         github (requests g) (prBranchRef g) = Throw message ->
         createGithubVerifiedCommits shell github config g
         = if String.eqb message "Reference already exists"
           then replayCommits shell github config commits
                  (add_request (prBranchRef g) g)
           else (Throw message, add_request (prBranchRef g) g))
  /\ (forall data,
         github (requests g) (prBranchRef g) = Ok data ->
         createGithubVerifiedCommits shell github config g
         = replayCommits shell github config commits
             (add_request (prBranchRef g) g)).
Proof.
  intros Hskip Hcommits.
  assert (Hrun : createGithubVerifiedCommits shell github config g
                 = match github (requests g) (prBranchRef g) with
                   | Ok _ => replayCommits shell github config commits
                               (add_request (prBranchRef g) g)
                   | Throw message =>
                       if String.eqb message "Reference already exists"
                       then replayCommits shell github config commits
                              (add_request (prBranchRef g) g)
                       else (Throw message, add_request (prBranchRef g) g)
                   end).
  { unfold createGithubVerifiedCommits. rewrite bind_run, Hcommits, Hskip.
    cbn [negb]. rewrite bind_run.
    unfold createPrBranchRef. rewrite bind_run.
    cbn [this]. unfold try_catch. rewrite bind_run, request_run.
    destruct (github (requests g) (prBranchRef g)) as [data|message];
      [done|].
    by destruct (String.eqb message "Reference already exists"). }
  split; [|split].
  - rewrite Hrun.
    destruct (grows_replayCommits shell github config commits
                (add_request (prBranchRef g) g)) as [rest Hrest].
    simpl in Hrest. rewrite <- app_assoc in Hrest.
    destruct (github (requests g) (prBranchRef g)) as [data|message];
      [by exists rest|].
    destruct (String.eqb message "Reference already exists");
      [by exists rest|by exists []].
  - intros message Hm. by rewrite Hrun, Hm.
  - intros data Hd. by rewrite Hrun, Hd.
Qed.

Lemma createGithubVerifiedCommits_ref_example :
  (exists rest,
      requests (snd (createGithubVerifiedCommits Replay.shell
                       Replay.branchExists Replay.config Replay.session))
      = CreateRef "org" "repo" "c0" "refs/heads/repo-sync/tools/main" :: rest)
  /\ createGithubVerifiedCommits Replay.shell Replay.branchExists
       Replay.config Replay.session
     = replayCommits Replay.shell Replay.branchExists Replay.config
         ["c1"; "c2"] (add_request (prBranchRef Replay.session) Replay.session)
  /\ createGithubVerifiedCommits Replay.shell Replay.forbidden
       Replay.config Replay.session
     = (Throw "Resource not accessible by integration",
        add_request (prBranchRef Replay.session) Replay.session).
Proof.
  destruct (createGithubVerifiedCommits_ref Replay.shell Replay.branchExists
              Replay.config Replay.session ["c1"; "c2"])
    as (Hfirst & Hthrow & _); [reflexivity|vm_compute; reflexivity|].
  destruct (createGithubVerifiedCommits_ref Replay.shell Replay.forbidden
              Replay.config Replay.session ["c1"; "c2"])
    as (_ & Hthrow' & _); [reflexivity|vm_compute; reflexivity|].
  split; [exact Hfirst|]. split.
  - exact (Hthrow "Reference already exists" eq_refl).
  - exact (Hthrow' "Resource not accessible by integration" eq_refl).
Defined.

Section ReplayFacts.

Variable shell : string -> string -> result string.
Variable github : list ApiCall -> ApiCall -> result ResponseData.




End ReplayFacts.



(** * Further properties *)

(** ** Splitting and joining *)

Section SplitFacts.

Lemma split_absent sep s : has_substring sep s = false -> split sep s = [s].
Proof.
  unfold split. induction s as [|a s IH]; intros H.
  - reflexivity.
  - cbn [has_substring] in H. apply orb_false_iff in H as [Hs Hrest].
    cbn [split_go]. rewrite Hs, IH by done. reflexivity.
Qed.

Lemma split_char_nonempty c s : split (String c "") s <> [].
Proof.
  destruct s as [|a s]; [done|]. rewrite split_char_cons.
  destruct (Ascii.eqb c a); [done|].
  by destruct (split (String c "") s).
Qed.

(** Splitting at the last separator. *)
Lemma split_char_snoc c d name :
  has_char c name = false ->
  split (String c "") (d +:+ String c name) = split (String c "") d ++ [name].
Proof.
  intros Hname. induction d as [|a d IH].
  - change ("" +:+ String c name) with (String c name).
    rewrite split_char_cons, Ascii.eqb_refl.
    by rewrite split_char_absent.
  - change (String a d +:+ String c name) with (String a (d +:+ String c name)).
    rewrite !split_char_cons, IH.
    destruct (Ascii.eqb c a); [done|].
    pose proof (split_char_nonempty c d).
    by destruct (split (String c "") d).
Qed.

(** Joining the pieces gives the string back. *)
Lemma join_split_char c s :
  JsString.join (String c "") (split (String c "") s) = s.
Proof.
  induction s as [|a s IH]; [done|].
  rewrite split_char_cons.
  pose proof (split_char_nonempty c s) as Hne.
  destruct (Ascii.eqb_spec c a) as [->|Hca].
  - destruct (split (String a "") s) as [|h t] eqn:E; [done|].
    rewrite join_cons, IH. reflexivity.
  - destruct (split (String c "") s) as [|h t] eqn:E; [done|].
    rewrite <- IH. by destruct t.
Qed.



Lemma word_inv s : word s = true -> no_ws s = true /\ s <> "".
Proof.
  unfold word. rewrite andb_true_iff, negb_true_iff, String.eqb_neq. tauto.
Qed.

Lemma trimEnd_words pre xs :
  xs <> [] -> Forall (fun x => word x = true) xs ->
  trimEnd (pre +:+ JsString.join LF xs) = pre +:+ JsString.join LF xs.
Proof.
  revert pre; induction xs as [|x [|y xs] IH]; intros pre Hne Hall; [done| |].
  - inversion Hall as [|? ? [Hx Hx']%word_inv _]; subst.
    by apply trimEnd_app_no_ws.
  - inversion Hall; subst. rewrite join_cons, <- !append_assoc. by apply IH.
Qed.

(** Trimming takes the white space around a list of words away, and
    nothing else. *)
Lemma trim_words before after xs :
  xs <> [] -> Forall (fun x => word x = true) xs ->
  only_ws before = true -> only_ws after = true ->
  trim (before +:+ JsString.join LF xs +:+ after) = JsString.join LF xs.
Proof.
  intros Hne Hall Hb Ha. unfold trim. rewrite trimStart_only_ws by done.
  assert (Hts : trimStart (JsString.join LF xs +:+ after)
                = JsString.join LF xs +:+ after).
  { destruct xs as [|x xs']; [done|].
    inversion Hall as [|? ? [Hx Hx']%word_inv _]; subst.
    destruct x as [|a x]; [done|].
    simpl in Hx. apply andb_true_iff in Hx as [Ha' _].
    apply negb_true_iff in Ha'.
    destruct xs'; simpl; by rewrite Ha'. }
  rewrite Hts, trimEnd_app_ws by done.
  by apply (trimEnd_words "").
Qed.

Lemma split_words xs :
  xs <> [] -> Forall (fun x => word x = true) xs ->
  split LF (JsString.join LF xs) = xs.
Proof.
  intros Hne Hall. apply split_join; [done|].
  eapply Forall_impl; [exact Hall|]. intros x [Hx _]%word_inv.
  by apply no_ws_has_char.
Qed.

End SplitFacts.

(** ** More on the unified-diff parser *)

Lemma parseFileDiff_cases m seg :
  parseFileDiff m seg
  = if badSegment seg
    then Throw "Cannot read properties of undefined (reading 'slice')"
    else Ok (addSegment m seg).
Proof.
  destruct (textSegment seg) eqn:Htext.
  - rewrite parseFileDiff_textSegment by done.
    unfold textSegment, headerIndex, badSegment in *.
    destruct (split LF seg) as [|first rest]; [done|].
    cbn [findIndex] in Htext.
    by destruct (startsWith "+++" first).
  - unfold textSegment, headerIndex in Htext.
    unfold parseFileDiff, badSegment, addSegment, diffPath, diffBody,
      headerIndex.
    destruct (split LF seg) as [|first rest]; [done|].
    cbn [findIndex] in *.
    destruct (startsWith "+++" first) eqn:Hfirst.
    + cbn [mbind option_bind at_index nth_error default andb].
      unfold id. by destruct (startsWith "+++ b/" first).
    + by destruct (findIndex (startsWith "+++") rest).
Qed.

Lemma reduce_parseFileDiff_ok segs m m' :
  reduce parseFileDiff segs m = Ok m' -> m' = fold_left addSegment segs m.
Proof.
  revert m; induction segs as [|seg segs IH]; intros m; simpl.
  - by intros [= <-].
  - rewrite parseFileDiff_cases.
    destruct (badSegment seg); [done|]. apply IH.
Qed.

Lemma reduce_parseFileDiff_throw segs m :
  (exists e, reduce parseFileDiff segs m = Throw e)
  <-> Exists (fun seg => badSegment seg = true) segs.
Proof.
  revert m; induction segs as [|seg segs IH]; intros m; simpl.
  - split; [by intros [e [=]]|by intros H; inversion H].
  - rewrite parseFileDiff_cases, Exists_cons.
    destruct (badSegment seg) eqn:Hbad; simpl.
    + split; eauto.
    + rewrite IH. split; [auto|]. by intros [[=]|H].
Qed.

Lemma addSegment_other after (m : gmap string string) p :
  Forall (fun seg => diffPath seg <> Some p) after ->
  fold_left addSegment after m !! p = m !! p.
Proof.
  revert m; induction after as [|seg after IH]; intros m Hall; [done|].
  inversion Hall as [|? ? Hseg Hafter]; subst. simpl.
  rewrite IH by done. unfold addSegment.
  destruct (diffPath seg) as [q|]; [|done].
  destruct (diffBody seg); [|done].
  apply lookup_insert_ne. congruence.
Qed.

(** X1: a text in which no line starts with [diff --git] gives the empty
    dictionary: the empty output of [git diff] does, and so does any text
    before the first header. *)
Theorem parseGitDiffOutput_no_header s :
  has_substring (LF +:+ "diff --git") (LF +:+ s) = false ->
  parseGitDiffOutput s = Ok ∅.
Proof.
  intros H. unfold parseGitDiffOutput, fileDiffs.
  by rewrite split_absent.
Qed.

Lemma parseGitDiffOutput_no_header_example :
  parseGitDiffOutput "" = Ok ∅
  /\ parseGitDiffOutput "warning: LF will be replaced by CRLF" = Ok ∅.
Proof.
  split; apply parseGitDiffOutput_no_header; vm_compute; reflexivity.
Defined.

(** X2: [parseGitDiffOutput] throws exactly when the text has a segment
    whose very first line starts with [+++] but not with [+++ b/] (the
    code then reads [lines[-1].slice]); on every other text it returns a
    dictionary. *)
Theorem parseGitDiffOutput_throws_iff s :
  ((exists e, parseGitDiffOutput s = Throw e)
   <-> Exists (fun seg => badSegment seg = true) (fileDiffs s))
  /\ ((exists m, parseGitDiffOutput s = Ok m)
      <-> Forall (fun seg => badSegment seg = false) (fileDiffs s)).
Proof.
  pose proof (reduce_parseFileDiff_throw (fileDiffs s) ∅) as Hthrow.
  split; [exact Hthrow|].
  fold (parseGitDiffOutput s) in Hthrow.
  split.
  - intros [m Hm]. apply Forall_forall. intros seg Hin.
    destruct (badSegment seg) eqn:Hbad; [|done].
    destruct (proj2 Hthrow) as [e He]; [|congruence].
    apply Exists_exists. eauto.
  - intros Hall. destruct (parseGitDiffOutput s) as [m|e] eqn:E; [eauto|].
    assert (Hex : Exists (fun seg => badSegment seg = true) (fileDiffs s))
      by (apply Hthrow; eauto).
    apply Exists_exists in Hex as (seg & Hin & Hbad).
    rewrite Forall_forall in Hall. rewrite (Hall seg Hin) in Hbad. done.
Qed.

(** X3: when several segments give the same path, the dictionary holds
    the body of the last of them. *)
Theorem parseGitDiffOutput_last_wins s (m : gmap string string)
    before seg after p v :
  parseGitDiffOutput s = Ok m ->
  fileDiffs s = before ++ seg :: after ->
  diffPath seg = Some p -> diffBody seg = Some v ->
  Forall (fun seg' => diffPath seg' <> Some p) after ->
  m !! p = Some v.
Proof.
  intros Hm Hsegs Hp Hv Hafter.
  apply reduce_parseFileDiff_ok in Hm. subst m.
  rewrite Hsegs, fold_left_app. cbn [fold_left].
  rewrite addSegment_other by done.
  unfold addSegment. rewrite Hp, Hv. apply lookup_insert_eq.
Qed.

Lemma parseGitDiffOutput_last_wins_example :
  exists m : gmap string string,
    parseGitDiffOutput Cases.twiceDiff = Ok m /\ m !! "f" = Some "second".
Proof.
  destruct (parseGitDiffOutput Cases.twiceDiff) as [m|e] eqn:E;
    [|vm_compute in E; discriminate].
  exists m. split; [reflexivity|].
  apply (parseGitDiffOutput_last_wins Cases.twiceDiff m
           [" a/f b/f" +:+ LF +:+ "--- a/f" +:+ LF +:+ "+++ b/f" +:+ LF
            +:+ "first"]
           (" a/f b/f" +:+ LF +:+ "--- a/f" +:+ LF +:+ "+++ b/f" +:+ LF
            +:+ "second" +:+ LF)
           [] "f" "second"); try (vm_compute; reflexivity).
  - exact E.
  - constructor.
Defined.

(** ** More on the output of the git commands *)

(** X4: a path with a blank in it is cut at the blank: the entry of a row
    whose path is [a b] has the path [a], since the line is split at
    every blank and only six pieces are kept. *)
Theorem parseTreeDiffLine_path_with_blank f1 f2 f3 f4 f5 a b :
  no_ws f1 = true -> no_ws f2 = true -> no_ws f3 = true ->
  no_ws f4 = true -> no_ws f5 = true -> no_ws a = true ->
  parseTreeDiffLine
    (":" +:+ f1 +:+ " " +:+ f2 +:+ " " +:+ f3 +:+ " " +:+ f4 +:+ " " +:+ f5
     +:+ TAB +:+ a +:+ " " +:+ b)
  = mkEntry (Str f1) (Str f2) (Str f3) (Str f4) (Str f5) (Str a).
Proof.
  intros H1 H2 H3 H4 H5 Ha.
  assert (Hsp : forall f, no_ws f = true -> has_char " " f = false)
    by (intros; by apply no_ws_has_char).
  assert (Htb : forall f, no_ws f = true -> has_char (chr 9) f = false)
    by (intros; by apply no_ws_has_char).
  unfold parseTreeDiffLine, replace_anchored, TAB; simpl.
  repeat (rewrite replace_first_char_app by auto;
          try rewrite replace_first_char_ne by done).
  rewrite replace_first_char_eq; simpl.
  rewrite !split_char_app by auto.
  reflexivity.
Qed.

Lemma parseTreeDiffLine_path_with_blank_example :
  parseTreeDiffLine
    (":100644 100644 abc123 def456 M" +:+ TAB +:+ "my file.txt")
  = mkEntry (Str "100644") (Str "100644") (Str "abc123") (Str "def456")
      (Str "M") (Str "my").
Proof.
  apply (parseTreeDiffLine_path_with_blank "100644" "100644" "abc123"
           "def456" "M" "my" "file.txt"); reflexivity.
Defined.



(** X6: [getCommitsToPush] returns the commit ids that [git log] prints,
    one per line, in the order printed, whatever white space is around
    the output. *)
Theorem getCommitsToPush_lists shell g before after commits :
  commits <> [] -> Forall (fun c => word c = true) commits ->
  only_ws before = true -> only_ws after = true ->
  shell ("git log --format=%H --reverse " +:+ lastCommitSha g +:+ "..HEAD")
    (workingDir g)
  = Ok (before +:+ JsString.join LF commits +:+ after) ->
  getCommitsToPush shell g = (Ok commits, g).
Proof.
  intros Hne Hall Hb Ha Hsh.
  unfold getCommitsToPush, execCmd, lift, this, mbind, M_bind, mret, M_ret.
  rewrite Hsh; simpl. by rewrite trim_words, split_words.
Qed.

Lemma getCommitsToPush_lists_example :
  getCommitsToPush Replay.shell Replay.session
  = (Ok ["c1"; "c2"], Replay.session).
Proof.
  apply (getCommitsToPush_lists Replay.shell Replay.session "" LF
           ["c1"; "c2"]); try reflexivity.
  - discriminate.
  - by repeat constructor.
Defined.



Lemma findIndex_first {A} (p : A -> bool) l y r :
  Forall (fun x => p x = false) l -> p y = true ->
  findIndex p (l ++ y :: r) = Some (length l).
Proof.
  intros Hl Hy. induction Hl as [|x l Hx _ IH]; simpl.
  - by rewrite Hy.
  - by rewrite Hx, IH.
Qed.

(** X8: [getTreeId] looks for the tree only in the header block of the
    commit, the lines before the first empty line: a line of the commit
    message is never taken for it. Without a line starting with [tree]
    among the headers it throws. *)
Theorem getTreeId_header_block shell g commitSha stdout headers body :
  shell ("git cat-file -p " +:+ commitSha) (workingDir g) = Ok stdout ->
  split LF (trim stdout) = headers ++ "" :: body ->
  Forall (fun h => h <> "") headers ->
  getTreeId shell commitSha g
  = (match find (startsWith "tree") headers with
     | Some e => Ok (replace_first "tree " "" e)
     | None => Throw "Cannot read properties of undefined (reading 'replace')"
     end, g).
Proof.
  intros Hsh Hlines Hheaders.
  unfold getTreeId. rewrite bind_run. cbn [this]. rewrite bind_run.
  unfold execCmd, lift. rewrite Hsh. cbn [mbind result_bind].
  rewrite Hlines, findIndex_first.
  - rewrite take_app_length. by destruct (find _ headers).
  - eapply Forall_impl; [exact Hheaders|]. intros h Hh.
    apply String.eqb_neq. congruence.
  - reflexivity.
Qed.

Lemma getTreeId_header_block_example :
  getTreeId (Examples.printing Cases.commitText) "c1" Replay.session
  = (Ok "t1", Replay.session).
Proof.
  apply (getTreeId_header_block (Examples.printing Cases.commitText)
           Replay.session "c1" Cases.commitText ["tree t1"; "parent c0"]
           ["fix"; "tree shaking"]).
  - reflexivity.
  - vm_compute. reflexivity.
  - repeat constructor; discriminate.
Defined.

(** ** More on the filter and on the deletion of orphaned files *)

Lemma startsWith_append p s t :
  startsWith p s = true -> startsWith p (s +:+ t) = true.
Proof.
  revert s; induction p as [|a p IH]; intros [|b s]; simpl; try done.
  intros [-> H]%andb_true_iff. by rewrite IH.
Qed.

Section CopyFacts.

Context {pattern context : Type}.
Variable str_match : string -> pattern -> bool.
Variable render : string -> context -> string.
Implicit Types (file : FileRule pattern context).

Lemma folderOf_file d name :
  has_char "/" name = false -> name <> "" ->
  folderOf (d +:+ "/" +:+ name) = d +:+ "/".
Proof.
  intros Hname Hne. unfold folderOf.
  assert (Hend : endsWithChar "/" (d +:+ "/" +:+ name) = false).
  { rewrite <- append_assoc. unfold endsWithChar.
    rewrite last_char_app by done. by apply endsWithChar_absent. }
  rewrite Hend.
  change ("/" +:+ name) with (String "/"%char name).
  rewrite split_char_snoc by done.
  unfold drop_last. rewrite removelast_last.
  by rewrite join_split_char.
Qed.

Lemma deleteOrphans_git_first file src dest srcs gitFile rest root :
  startsWith ".git" gitFile = true ->
  deleteOrphans file src dest srcs (gitFile :: rest) root = root.
Proof. intros H. cbn [deleteOrphans]. by rewrite H. Qed.

End CopyFacts.

(** X9: in the loop that deletes orphaned files, a destination path that
    starts with [.git] ends the whole loop: the paths listed after it are
    not looked at, and no file among them is removed. *)
Theorem deleteOrphans_stops_at_git {pattern context : Type}
    (file : FileRule pattern context) src dest srcs before gitFile after root :
  startsWith ".git" gitFile = true ->
  deleteOrphans file src dest srcs (before ++ gitFile :: after) root
  = deleteOrphans file src dest srcs before root.
Proof.
  intros Hgit. revert root.
  induction before as [|destFile before IH]; intros root.
  - by apply deleteOrphans_git_first.
  - cbn [app deleteOrphans].
    destruct (startsWith ".git" destFile); [done|].
    destruct (negb (includes srcs destFile)); [|apply IH].
    destruct (match exclude file with Some _ => _ | None => _ end); apply IH.
Qed.

Lemma deleteOrphans_stops_at_git_example :
  deleteOrphans Examples.orphanRule "." "." ["a.txt"]
    (["a.txt"] ++ ".gitignore" :: ["b.txt"]) Examples.orphanTree
  = deleteOrphans Examples.orphanRule "." "." ["a.txt"] ["a.txt"]
      Examples.orphanTree.
Proof.
  apply (deleteOrphans_stops_at_git Examples.orphanRule "." "." ["a.txt"]
           ["a.txt"] ".gitignore" ["b.txt"] Examples.orphanTree).
  reflexivity.
Defined.

(** X10: for a destination directory whose relative path starts with
    [.git], such as [.github/workflows], the deletion of orphaned files
    removes nothing: every path that [walk] lists for it starts with
    [.git], and the first one ends the loop. *)
Theorem deleteOrphans_git_destination {pattern context : Type}
    (file : FileRule pattern context) src srcs first segs slash entries root :
  startsWith ".git" first = true ->
  Forall (fun s => plain_name s = true) (first :: segs) ->
  wf_node (Dir entries) = true ->
  let dest := dirPath false (first :: segs) slash in
  deleteOrphans file src dest srcs (walk_entries dest entries []) root = root.
Proof.
  intros Hgit Hsegs Hwf dest.
  pose proof (walk_node_below (Dir entries) false (first :: segs) slash
                Hwf ltac:(done) Hsegs) as Hbelow.
  fold dest in Hbelow. fold (walk_entries dest entries []) in Hbelow.
  destruct (walk_entries dest entries []) as [|destFile rest]; [done|].
  apply deleteOrphans_git_first.
  inversion Hbelow as [|? ? Hfile _]; subst.
  eapply startsWith_trans; [|exact Hfile].
  unfold dirPath. change ("" +:+ ?x) with x.
  destruct segs as [|s2 segs].
  - by apply startsWith_append.
  - rewrite join_cons, !append_assoc. by apply startsWith_append.
Qed.

Lemma deleteOrphans_git_destination_example :
  deleteOrphans Examples.orphanRule "src" ".github/workflows" ["src/ci.yml"]
    (walk_entries ".github/workflows"
       [("ci.yml", File "old"); ("stale.yml", File "x")] [])
    Cases.workflowsTree
  = Cases.workflowsTree.
Proof.
  apply (deleteOrphans_git_destination Examples.orphanRule "src"
           ["src/ci.yml"] ".github" ["workflows"] false
           [("ci.yml", File "old"); ("stale.yml", File "x")]
           Cases.workflowsTree).
  - reflexivity.
  - by repeat constructor.
  - reflexivity.
Defined.



(** X12: a file that lies directly in a folder listed in [exclude] (the
    path of the folder with a slash at its end) is filtered out, whenever
    the [replace] guard has not returned before. *)
Theorem filterFunc_excluded_folder {pattern context : Type}
    (str_match : string -> pattern -> bool)
    (file : FileRule pattern context) fsv folder name destFile excluded :
  replace file <> Some false ->
  exclude file = Some excluded ->
  includes excluded (folder +:+ "/") = true ->
  has_char "/" name = false -> name <> "" ->
  filterFunc str_match fsv file (folder +:+ "/" +:+ name) destFile = false.
Proof.
  intros Hr Hex Hin Hname Hne.
  rewrite filterFunc_no_guard by done. unfold filterChecks.
  by rewrite Hex, folderOf_file, Hin.
Qed.

Lemma filterFunc_excluded_folder_example :
  filterFunc Examples.occurs (view_of Examples.freshTree)
    Cases.excludeDocsRule "src/docs/readme.md" (Some "dst/docs/readme.md")
  = false.
Proof.
  apply (filterFunc_excluded_folder Examples.occurs Cases.excludeDocsRule
           (view_of Examples.freshTree) "src/docs" "readme.md"
           (Some "dst/docs/readme.md") ["src/docs/"]);
    try reflexivity; discriminate.
Defined.

(** ** More on the replay of commits *)

Section ReplayMore.

Variable shell : string -> string -> result string.
Variable github : list ApiCall -> ApiCall -> result ResponseData.

Lemma reads_ret {A} (a : A) : reads (mret a).
Proof. by intros g. Qed.

Lemma reads_throw {A} e : reads (@throw A e).
Proof. by intros g. Qed.

Lemma reads_this : reads this.
Proof. by intros g. Qed.

Lemma reads_execCmd command wd trimResult :
  reads (execCmd shell command wd trimResult).
Proof. by intros g. Qed.

Lemma reads_bind {A B} (m : M A) (k : A -> M B) :
  reads m -> (forall a, reads (k a)) -> reads (m ≫= k).
Proof.
  intros Hm Hk g. rewrite bind_run. specialize (Hm g).
  destruct (m g) as [[a|e] g1]; simpl in *; subst; [apply Hk|done].
Qed.

Lemma reads_getTreeId commitSha : reads (getTreeId shell commitSha).
Proof.
  unfold getTreeId. apply reads_bind; [apply reads_this|]. intros g.
  apply reads_bind; [apply reads_execCmd|]. intros out.
  destruct (find _ _); [apply reads_ret|apply reads_throw].
Qed.

Lemma reads_getCommitMessage commitSha :
  reads (getCommitMessage shell commitSha).
Proof.
  unfold getCommitMessage. apply reads_bind; [apply reads_this|].
  intros g. apply reads_execCmd.
Qed.

Lemma reads_getTreeDiff a b : reads (getTreeDiff shell a b).
Proof.
  unfold getTreeDiff. apply reads_bind; [apply reads_this|]. intros g.
  apply reads_bind; [apply reads_execCmd|]. intros out. apply reads_ret.
Qed.

Lemma same_repo_refl g : same_repo g g.
Proof. by repeat split. Qed.

Lemma same_repo_trans g1 g2 g3 :
  same_repo g1 g2 -> same_repo g2 g3 -> same_repo g1 g3.
Proof.
  unfold same_repo. intros (?&?&?&?&?&?) (?&?&?&?&?&?).
  repeat split; congruence.
Qed.

(** An upload either fails before its request, or sends one request, for
    a blob. *)
Lemma uploadGitHubBlob_any blob g :
  exists ups,
    snd (uploadGitHubBlob shell github blob g)
    = set_requests (requests g ++ ups) g
    /\ Forall (fun c => is_upload c = true) ups.
Proof.
  unfold uploadGitHubBlob. rewrite bind_run. cbn [this]. rewrite bind_run.
  unfold execCmd, lift.
  destruct (shell _ (workingDir g)) as [fileContent|e];
    cbn [mbind result_bind].
  - rewrite request_run. eexists [_]. split; [reflexivity|].
    by repeat constructor.
  - exists []. split; [|constructor]. simpl. rewrite app_nil_r. by destruct g.
Qed.

Lemma promise_all_uploads_any blobs g :
  exists ups,
    snd (promise_all
           (map (fun e => uploadGitHubBlob shell github (newBlob e)) blobs) g)
    = set_requests (requests g ++ ups) g
    /\ Forall (fun c => is_upload c = true) ups.
Proof.
  revert g; induction blobs as [|e blobs IH]; intros g.
  - exists []. split; [|constructor]. simpl. rewrite app_nil_r. by destruct g.
  - destruct (uploadGitHubBlob_any (newBlob e) g) as (ups1 & Hg1 & Hups1).
    cbn [map promise_all].
    destruct (uploadGitHubBlob shell github (newBlob e) g) as [r1 g1].
    simpl in Hg1. subst g1.
    destruct (IH (set_requests (requests g ++ ups1) g))
      as (ups2 & Hg2 & Hups2).
    exists (ups1 ++ ups2). split; [|by apply Forall_app].
    destruct r1 as [a|err].
    + destruct (promise_all _ (set_requests (requests g ++ ups1) g))
        as [[l|err] g2]; simpl in *; subst g2;
        by rewrite app_assoc.
    + simpl in *. rewrite Hg2. simpl. by rewrite app_assoc.
Qed.

(** What a replayed commit sends: uploads, then at most the request for
    the tree and the one for the commit; both when it succeeds. *)
Lemma createGithubCommit_sent commitSha g :
  exists added,
    requests (snd (createGithubCommit shell github commitSha g))
    = requests g ++ added
    /\ same_repo g (snd (createGithubCommit shell github commitSha g))
    /\ Forall (fun c => is_ref c = false) added
    /\ (fst (createGithubCommit shell github commitSha g) = Ok tt ->
        length (filter (fun c => is_commit c = true) added) = 1).
Proof.
  assert (Hnone : exists added,
             requests g = requests g ++ added /\ same_repo g g
             /\ Forall (fun c => is_ref c = false) added)
    by (exists []; rewrite app_nil_r; repeat split; constructor).
  unfold createGithubCommit. rewrite bind_run.
  pose proof (reads_getTreeId commitSha g) as R1.
  destruct (getTreeId shell commitSha g) as [[treeId|e] g1];
    simpl in R1; subst g1;
    [|destruct Hnone as (a & ? & ? & ?); exists a; by repeat split].
  rewrite bind_run.
  pose proof (reads_getTreeId (commitSha +:+ "~1") g) as R2.
  destruct (getTreeId shell (commitSha +:+ "~1") g) as [[parentTreeId|e] g1];
    simpl in R2; subst g1;
    [|destruct Hnone as (a & ? & ? & ?); exists a; by repeat split].
  rewrite bind_run.
  pose proof (reads_getCommitMessage commitSha g) as R3.
  destruct (getCommitMessage shell commitSha g) as [[message|e] g1];
    simpl in R3; subst g1;
    [|destruct Hnone as (a & ? & ? & ?); exists a; by repeat split].
  rewrite bind_run.
  pose proof (reads_getTreeDiff treeId parentTreeId g) as R4.
  destruct (getTreeDiff shell treeId parentTreeId g) as [[treeDiff|e] g1];
    simpl in R4; subst g1;
    [|destruct Hnone as (a & ? & ? & ?); exists a; by repeat split].
  clear Hnone. rewrite bind_run.
  destruct (promise_all_uploads_any (blobsToCreate treeDiff) g)
    as (ups & Hups & Hall).
  assert (Hnoref : Forall (fun c => is_ref c = false) ups).
  { eapply Forall_impl; [exact Hall|]. by intros [] H. }
  assert (Hnocommit : filter (fun c => is_commit c = true) ups = []).
  { clear -Hall. induction Hall as [|c ups Hc _ IH]; [done|].
    rewrite filter_cons, IH. by destruct c. }
  destruct (promise_all _ g) as [[l|e] g1]; simpl in Hups; subst g1.
  - rewrite bind_run. cbn [this]. rewrite bind_run.
    unfold try_catch. rewrite request_run.
    cbn [repo_user repo_name set_requests requests].
    destruct (github _ (CreateTree _ _ _ _)) as [req|e].
    + rewrite bind_run. cbn [this]. rewrite bind_run, request_run.
      cbn [repo_user repo_name set_requests add_request requests
             lastCommitSha].
      destruct (github _ (CreateCommit _ _ _ _ _)) as [req'|e]; simpl.
      * eexists (ups ++ [_; _]). rewrite <- !app_assoc.
        split; [reflexivity|]. split; [by repeat split|].
        split; [apply Forall_app; by repeat constructor|].
        intros _. by rewrite filter_app, Hnocommit.
      * eexists (ups ++ [_; _]). rewrite <- !app_assoc.
        split; [reflexivity|]. split; [by repeat split|].
        split; [apply Forall_app; by repeat constructor|]. done.
    + simpl. eexists (ups ++ [_]). rewrite <- !app_assoc.
      split; [reflexivity|]. split; [by repeat split|].
      split; [apply Forall_app; by repeat constructor|]. done.
  - simpl. exists ups. split; [reflexivity|]. split; [by repeat split|].
    split; done.
Qed.

Lemma forEach_createGithubCommit_sent commits g :
  exists added,
    requests (snd (forEach (createGithubCommit shell github) commits g))
    = requests g ++ added
    /\ same_repo g (snd (forEach (createGithubCommit shell github) commits g))
    /\ Forall (fun c => is_ref c = false) added
    /\ (fst (forEach (createGithubCommit shell github) commits g) = Ok tt ->
        length (filter (fun c => is_commit c = true) added)
        = length commits).
Proof.
  revert g; induction commits as [|c commits IH]; intros g.
  - exists []. simpl. rewrite app_nil_r.
    split; [done|]. split; [apply same_repo_refl|]. split; [constructor|done].
  - cbn [forEach]. rewrite bind_run.
    destruct (createGithubCommit_sent c g) as (a1 & Hr1 & Hs1 & Hn1 & Hc1).
    destruct (createGithubCommit shell github c g) as [[[]|e] g1];
      simpl in Hr1, Hs1, Hc1.
    + destruct (IH g1) as (a2 & Hr2 & Hs2 & Hn2 & Hc2).
      exists (a1 ++ a2). rewrite Hr2, Hr1, app_assoc.
      split; [done|]. split; [by eapply same_repo_trans|].
      split; [by apply Forall_app|].
      intros Hok. rewrite filter_app, length_app, Hc1, Hc2 by done. done.
    + exists a1. simpl. split; [done|]. split; [done|]. split; done.
Qed.

End ReplayMore.

Section ReplaySteps.

Variable shell : string -> string -> result string.
Variable github : list ApiCall -> ApiCall -> result ResponseData.


End ReplaySteps.





(** X15: when [createGithubVerifiedCommits] succeeds, it has sent one
    commit request for each commit that [getCommitsToPush] returned, no
    request on a branch in between, and as its last request the forced
    update of the branch ([prBranch], or [baseBranch] when pull requests
    are skipped) to the final [lastCommitSha]; the request that creates
    the branch is sent only when pull requests are not skipped. *)
Theorem createGithubVerifiedCommits_succeeds shell github config g g' commits :
  getCommitsToPush shell g = (Ok commits, g) ->
  createGithubVerifiedCommits shell github config g = (Ok tt, g') ->
  exists added,
    requests g'
    = requests g
      ++ (if SKIP_PR config then [] else [prBranchRef g])
      ++ added
      ++ [ UpdateRef (repo_user g) (repo_name g)
             ("heads/" +:+ (if SKIP_PR config then baseBranch g
                            else prBranch g))
             (lastCommitSha g') true ]
    /\ Forall (fun c => is_ref c = false) added
    /\ length (filter (fun c => is_commit c = true) added) = length commits.
Proof.
  intros Hcommits Hrun.
  unfold createGithubVerifiedCommits in Hrun.
  rewrite bind_run, Hcommits, bind_run in Hrun.
  set (first := if SKIP_PR config then [] else [prBranchRef g]).
  assert (Hfirst : exists g1,
             (if negb (SKIP_PR config) then createPrBranchRef github
              else mret tt) g = (Ok tt, g1)
             /\ requests g1 = requests g ++ first /\ same_repo g g1).
  { destruct ((if negb (SKIP_PR config) then createPrBranchRef github
               else mret tt) g) as [[[]|e] g1] eqn:E; [|done].
    exists g1. split; [done|]. subst first.
    destruct (SKIP_PR config); cbn [negb] in E.
    - injection E as <-. rewrite app_nil_r. split; [done|apply same_repo_refl].
    - unfold createPrBranchRef in E. rewrite bind_run in E. cbn [this] in E.
      unfold try_catch in E. rewrite bind_run, request_run in E.
      destruct (github (requests g) (prBranchRef g)) as [data|message].
      + injection E as <-. split; [done|by repeat split].
      + destruct (negb (String.eqb message "Reference already exists"));
          [done|]. injection E as <-. split; [done|by repeat split]. }
  destruct Hfirst as (g1 & Hg1 & Hreq1 & Hsame1).
  rewrite Hg1 in Hrun. unfold replayCommits in Hrun.
  rewrite bind_run in Hrun.
  destruct (forEach_createGithubCommit_sent shell github commits g1)
    as (added & Hreq2 & Hsame2 & Hnoref & Hcount).
  destruct (forEach (createGithubCommit shell github) commits g1)
    as [[[]|e] g2]; [|done].
  simpl in Hreq2, Hsame2, Hcount.
  rewrite bind_run in Hrun. cbn [this] in Hrun.
  rewrite bind_run, request_run in Hrun.
  destruct (github (requests g2) _) as [data|e]; [|done].
  injection Hrun as <-.
  pose proof (same_repo_trans _ _ _ Hsame1 Hsame2) as (Hu & Hn & _ & Hb & Hp & _).
  exists added. split; [|split; [done|by apply Hcount]].
  cbn [add_request set_requests requests lastCommitSha].
  rewrite Hreq2, Hreq1, Hu, Hn, Hb, Hp, <- !app_assoc.
  by destruct (SKIP_PR config).
Qed.

Lemma createGithubVerifiedCommits_succeeds_example :
  exists added,
    requests (snd (createGithubVerifiedCommits Replay.shell Replay.github
                     Replay.config Replay.session))
    = [] ++ [prBranchRef Replay.session] ++ added
      ++ [ UpdateRef "org" "repo" "heads/repo-sync/tools/main"
             "commit-of-tree-on-t1" true ]
    /\ Forall (fun c => is_ref c = false) added
    /\ length (filter (fun c => is_commit c = true) added) = 2.
Proof.
  apply (createGithubVerifiedCommits_succeeds Replay.shell Replay.github
           Replay.config Replay.session
           (snd (createGithubVerifiedCommits Replay.shell Replay.github
                   Replay.config Replay.session)) ["c1"; "c2"]).
  - vm_compute. reflexivity.
  - vm_compute. reflexivity.
Defined.

(** X16: when the replay of a commit fails, [createGithubVerifiedCommits]
    fails with the same error and the branch is not moved: no request on
    a branch is sent after the one that created it. *)
Theorem replayCommits_failure shell github config commits g g' e :
  forEach (createGithubCommit shell github) commits g = (Throw e, g') ->
  replayCommits shell github config commits g = (Throw e, g')
  /\ exists added,
       requests g' = requests g ++ added
       /\ Forall (fun c => is_ref c = false) added.
Proof.
  intros Hloop. split.
  - unfold replayCommits. by rewrite bind_run, Hloop.
  - destruct (forEach_createGithubCommit_sent shell github commits g)
      as (added & Hreq & _ & Hnoref & _).
    rewrite Hloop in Hreq. eauto.
Qed.

Lemma replayCommits_failure_example :
  replayCommits Replay.shell noTrees Replay.config ["c1"; "c2"] Replay.session
  = (Throw "Cannot create a new GitHub Tree: Validation Failed",
     snd (forEach (createGithubCommit Replay.shell noTrees) ["c1"; "c2"]
            Replay.session))
  /\ exists added,
       requests (snd (forEach (createGithubCommit Replay.shell noTrees)
                        ["c1"; "c2"] Replay.session))
       = [] ++ added
       /\ Forall (fun c => is_ref c = false) added.
Proof.
  apply (replayCommits_failure Replay.shell noTrees Replay.config
           ["c1"; "c2"] Replay.session).
  vm_compute. reflexivity.
Defined.

(** X17: after [createOrUpdatePr] has created a pull request, a second
    call updates that same pull request, and sets its title to the
    default title whatever title the first call gave it. *)
Theorem createOrUpdatePr_twice github config g data
    changedFiles title changedFiles' title' :
  existingPr g = None ->
  github (requests g)
    (PullsCreate (repo_user g) (repo_name g)
       match title with
       | Some title => title
       | None => defaultTitle config
       end
       (prBody config changedFiles)
       (headOwner config g +:+ ":" +:+ prBranch g) (baseBranch g))
  = Ok data ->
  let g1 := snd (createOrUpdatePr github config changedFiles title g) in
  existingPr g1 = Some data
  /\ requests (snd (createOrUpdatePr github config changedFiles' title' g1))
     = requests g1
       ++ [ PullsUpdate (repo_user g) (repo_name g) (defaultTitle config)
              (data_number data) (prBody config changedFiles') ].
Proof.
  intros Hnone Hcreate g1.
  assert (Hg1 : g1 = set_existingPr (Some data)
                       (add_request
                          (PullsCreate (repo_user g) (repo_name g)
                             match title with
                             | Some title => title
                             | None => defaultTitle config
                             end
                             (prBody config changedFiles)
                             (headOwner config g +:+ ":" +:+ prBranch g)
                             (baseBranch g)) g)).
  { subst g1. unfold createOrUpdatePr. rewrite bind_run. cbn [this].
    rewrite Hnone, bind_run, request_run, Hcreate. reflexivity. }
  clearbody g1. subst g1. split; [reflexivity|].
  unfold createOrUpdatePr. rewrite bind_run. cbn [this].
  cbn [existingPr set_existingPr]. by rewrite request_run.
Qed.

Lemma createOrUpdatePr_twice_example :
  let g1 := snd (createOrUpdatePr Replay.github Replay.config "a.txt"
                   (Some "custom title") Replay.session) in
  existingPr g1 = Some (mkData "" 0 "")
  /\ requests (snd (createOrUpdatePr Replay.github Replay.config "b.txt"
                      (Some "another title") g1))
     = requests g1
       ++ [ PullsUpdate "org" "repo" "sync: synced file(s) with org/tools" 0
              (prBody Replay.config "b.txt") ].
Proof.
  apply (createOrUpdatePr_twice Replay.github Replay.config Replay.session
           (mkData "" 0 "") "a.txt" (Some "custom title") "b.txt"
           (Some "another title")); reflexivity.
Defined.

(** ** Copying without replacing *)

Section KeepFacts.

Lemma keeps_files_refl root : keeps_files root root.
Proof. by intros segs content. Qed.

Lemma keeps_files_trans r1 r2 r3 :
  keeps_files r1 r2 -> keeps_files r2 r3 -> keeps_files r1 r3.
Proof. intros H12 H23 segs content H. by apply H23, H12. Qed.

Lemma put_dir s rest upd es :
  Fs.put (s :: rest) upd (Dir es)
  = (es' ← update_entry s (Fs.put rest upd)
             (new ← upd None; Ok (Fs.fresh rest new)) es;
     Ok (Dir es')).
Proof.
  cbn [Fs.put]. f_equal.
  induction es as [|[k c] tl IH].
  - cbn [update_entry]. by destruct (upd None).
  - cbn [update_entry]. destruct (String.eqb k s); [done|]. by rewrite IH.
Qed.

Lemma copy_item_dir filter srcItem destItem es root :
  copy_item filter srcItem destItem (Dir es) root
  = if filter root srcItem (Some destItem)
    then root1 ← Fs.ensureDir root destItem;
         copy_items filter srcItem destItem es root1
    else Ok root.
Proof.
  cbn [copy_item]. destruct (filter root srcItem (Some destItem)); [|done].
  destruct (Fs.ensureDir root destItem) as [root1|e]; [|done].
  cbn [mbind result_bind]. revert root1.
  induction es as [|[item child] rest IH]; intros root1; [done|].
  cbn [copy_items].
  destruct (copy_item filter _ _ child root1) as [root2|e]; [|done].
  cbn [mbind result_bind]. apply IH.
Qed.

Lemma update_entry_keeps s rest upd create :
  (forall c c',
      Fs.put rest upd c = Ok c' ->
      (forall old x, Fs.descend c rest = Some old -> upd (Some old) = Ok x ->
                     x = old) ->
      keeps_files c c') ->
  forall es es',
    update_entry s (Fs.put rest upd) create es = Ok es' ->
    (forall old x, Fs.descend (Dir es) (s :: rest) = Some old ->
                   upd (Some old) = Ok x -> x = old) ->
    keeps_files (Dir es) (Dir es').
Proof.
  intros IHrest es. induction es as [|[k c0] tl IH]; intros es' Hupd Hold.
  - intros [|s' q'] content H; [done|done].
  - cbn [update_entry] in Hupd.
    destruct (String.eqb k s) eqn:Hks.
    + destruct (Fs.put rest upd c0) as [c0'|e] eqn:Hput; [|done].
      injection Hupd as <-.
      assert (Hkeep : keeps_files c0 c0').
      { apply IHrest; [done|]. intros old x Hd. apply Hold.
        cbn [Fs.descend Fs.lookup_entry]. by rewrite Hks. }
      intros [|s' q'] content H; [done|].
      cbn [Fs.descend Fs.lookup_entry] in *.
      destruct (String.eqb k s'); [by apply Hkeep|done].
    + destruct (update_entry s (Fs.put rest upd) create tl) as [tl'|e] eqn:Htl;
        [|done].
      injection Hupd as <-.
      assert (Hkeep : keeps_files (Dir tl) (Dir tl')).
      { apply IH; [done|]. intros old x Hd. apply Hold.
        cbn [Fs.descend Fs.lookup_entry] in *. by rewrite Hks. }
      intros [|s' q'] content H; [done|].
      cbn [Fs.descend Fs.lookup_entry] in *.
      destruct (String.eqb k s'); [done|].
      exact (Hkeep (s' :: q') content H).
Qed.

(** Writing at a place where [upd] changes nothing that is there keeps
    every file. *)
Lemma put_keeps segs upd :
  forall n n',
    Fs.put segs upd n = Ok n' ->
    (forall old x, Fs.descend n segs = Some old -> upd (Some old) = Ok x ->
                   x = old) ->
    keeps_files n n'.
Proof.
  induction segs as [|s rest IH]; intros n n' Hput Hold.
  - cbn [Fs.put] in Hput. rewrite (Hold n n') by done.
    apply keeps_files_refl.
  - destruct n as [content|es]; [done|].
    rewrite put_dir in Hput.
    destruct (update_entry s _ _ es) as [es'|e] eqn:Hupd; [|done].
    injection Hput as <-.
    by eapply update_entry_keeps.
Qed.

Lemma normalize_nonempty p : Path.normalize p <> "".
Proof.
  unfold Path.normalize.
  destruct (String.eqb p ""); [done|].
  destruct (String.eqb (Path.normalizeString p _) "") eqn:Hq.
  - by destruct (startsWith "/" p), (endsWithChar "/" p).
  - apply String.eqb_neq in Hq.
    destruct (startsWith "/" p); [done|].
    destruct (endsWithChar "/" p); [|done].
    by destruct (Path.normalizeString p _).
Qed.

Lemma join_nonempty a b : Path.join a b <> "".
Proof.
  unfold Path.join.
  destruct (String.eqb a ""), (String.eqb b "");
    try done; apply normalize_nonempty.
Qed.

End KeepFacts.

Section NoClobber.

Context {pattern context : Type}.
Variable str_match : string -> pattern -> bool.
Variable file : FileRule pattern context.
Hypothesis Hreplace : replace file = Some false.

Let filter := fun root : node => filterFunc str_match (view_of root) file.

Lemma filter_not_a_file root srcItem destItem content :
  filter root srcItem (Some destItem) = true ->
  Fs.resolve root destItem <> Some (File content).
Proof using Hreplace.
  unfold filter, filterFunc. rewrite Hreplace.
  cbn [view_of lstat_isDirectory exists_sync].
  unfold Fs.stat_isDirectory, Fs.existsSync.
  intros H Hres. by rewrite Hres in H.
Qed.

Lemma copy_item_keeps n :
  forall srcItem destItem root root',
    destItem <> "" ->
    copy_item filter srcItem destItem n root = Ok root' ->
    keeps_files root root'.
Proof using Hreplace.
  induction n as [content|es IH] using node_ind';
    intros srcItem destItem root root' Hdest Hcopy.
  - cbn [copy_item] in Hcopy.
    destruct (filter root srcItem (Some destItem)) eqn:Hfilter;
      [|injection Hcopy as <-; apply keeps_files_refl].
    unfold Fs.outputFile in Hcopy.
    eapply put_keeps; [exact Hcopy|].
    intros old x Hold Hupd.
    destruct old as [c|d]; [|done].
    exfalso. eapply filter_not_a_file; [exact Hfilter|].
    unfold Fs.resolve. apply String.eqb_neq in Hdest. rewrite Hdest.
    exact Hold.
  - rewrite copy_item_dir in Hcopy.
    destruct (filter root srcItem (Some destItem));
      [|injection Hcopy as <-; apply keeps_files_refl].
    destruct (Fs.ensureDir root destItem) as [root1|e] eqn:Hensure; [|done].
    cbn [mbind result_bind] in Hcopy.
    assert (H1 : keeps_files root root1).
    { unfold Fs.ensureDir in Hensure.
      eapply put_keeps; [exact Hensure|].
      intros [c|d] x _ Hupd; [done|]. by injection Hupd. }
    eapply keeps_files_trans; [exact H1|].
    clear Hensure H1. revert root1 Hcopy.
    induction IH as [|[item child] rest Hchild _ IHrest]; intros root1 Hcopy.
    + injection Hcopy as <-. apply keeps_files_refl.
    + cbn [copy_items] in Hcopy.
      destruct (copy_item filter _ _ child root1) as [root2|e] eqn:Hc;
        [|done].
      cbn [mbind result_bind] in Hcopy.
      eapply keeps_files_trans; [|by apply IHrest].
      eapply Hchild; [|exact Hc]. apply join_nonempty.
Qed.

End NoClobber.

(** X18: a rule with [replace] false, without a template and without the
    deletion of orphaned files, overwrites nothing: every file that is
    in the file system before [copy] is there afterwards with the same
    content, whatever the source holds. *)
Theorem copy_no_replace_keeps_files {pattern context : Type}
    (str_match : string -> pattern -> bool)
    (render : string -> context -> string)
    (file : FileRule pattern context) root root' src dest isDirectory :
  template file = None ->
  replace file = Some false ->
  isDirectory && deleteOrphaned file = false ->
  dest <> "" ->
  copy str_match render root src dest isDirectory file = Ok root' ->
  forall p content,
    Fs.readFile root p = Ok content -> Fs.readFile root' p = Ok content.
Proof.
  intros Ht Hr Hd Hdest Hcopy p content Hread.
  unfold copy in Hcopy. rewrite Ht, Hd in Hcopy.
  unfold fs_copy in Hcopy.
  destruct (Fs.resolve root src) as [n|]; [|done].
  destruct (copy_item _ src dest n root) as [root1|e] eqn:Hc; [|done].
  injection Hcopy as <-.
  pose proof (copy_item_keeps str_match file Hr n src dest root root1
                Hdest Hc) as Hkeep.
  unfold Fs.readFile, Fs.resolve in *.
  destruct (String.eqb p ""); [done|].
  destruct (Fs.descend root (Fs.segments p)) as [[c|d]|] eqn:Hdesc;
    try done.
  injection Hread as ->. by rewrite (Hkeep _ _ Hdesc).
Qed.

Lemma copy_no_replace_keeps_files_example :
  copy Examples.occurs Examples.plain mixTree "src" "dst" true noReplaceRule
  = Ok (Dir [("src", Dir [("a.txt", File "new"); ("c.txt", File "more")]);
             ("dst", Dir [("a.txt", File "old"); ("c.txt", File "more")])])
  /\ Fs.readFile
       (Dir [("src", Dir [("a.txt", File "new"); ("c.txt", File "more")]);
             ("dst", Dir [("a.txt", File "old"); ("c.txt", File "more")])])
       "dst/a.txt" = Ok "old".
Proof.
  split; [reflexivity|].
  apply (copy_no_replace_keeps_files Examples.occurs Examples.plain
           noReplaceRule mixTree _ "src" "dst" true); try reflexivity.
  discriminate.
Defined.

(** ** What [walk] lists *)

Section WalkSound.

Lemma includes_In l s : includes l s = true <-> In s l.
Proof.
  unfold includes. rewrite existsb_exists. split.
  - intros (x & Hin & Heq). apply String.eqb_eq in Heq. by subst.
  - intros Hin. exists s. split; [done|apply String.eqb_refl].
Qed.

Lemma lookup_entry_distinct es name child :
  distinct_names (map fst es) = true ->
  In (name, child) es -> Fs.lookup_entry name es = Some child.
Proof.
  induction es as [|[k c] es IH]; [done|].
  cbn [map fst distinct_names Fs.lookup_entry].
  intros [Hk Hes]%andb_true_iff [Heq|Hin].
  - injection Heq as -> ->. by rewrite String.eqb_refl.
  - destruct (String.eqb_spec k name) as [->|Hne]; [|by apply IH].
    apply negb_true_iff in Hk.
    assert (Hinc : includes (map fst es) name = true).
    { apply includes_In. by apply (in_map fst) in Hin. }
    congruence.
Qed.

Lemma nodup_node_entries es :
  nodup_node (Dir es) = true ->
  distinct_names (map fst es) = true
  /\ Forall (fun e => nodup_node (snd e) = true) es.
Proof.
  cbn [nodup_node]. intros [Hd Hall]%andb_true_iff. split; [done|].
  apply Forall_forall. intros e He. apply list_elem_of_In in He.
  rewrite forallb_forall in Hall. by apply Hall.
Qed.

Lemma descend_app segs rel : forall n m,
  Fs.descend n segs = Some m -> Fs.descend n (segs ++ rel) = Fs.descend m rel.
Proof.
  induction segs as [|s segs IH]; intros n m; simpl.
  - by intros [= <-].
  - destruct n as [c|es]; [done|].
    destruct (Fs.lookup_entry s es); [apply IH|done].
Qed.

Lemma pieces_plain_no_slash absolute segs slash :
  Forall (fun s => plain_name s = true) segs ->
  Forall (fun x => has_char "/" x = false) (pieces absolute segs slash).
Proof.
  intros Hsegs. unfold pieces. rewrite !Forall_app. repeat split.
  - destruct absolute; repeat constructor.
  - eapply Forall_impl; [exact Hsegs|]. intros s Hs.
    by apply plain_name_inv in Hs as (_ & _ & _ & ?).
  - destruct slash; repeat constructor.
Qed.

(** The names that a directory path in normal form denotes. *)
Lemma segments_dirPath absolute segs slash :
  segs <> [] -> Forall (fun s => plain_name s = true) segs ->
  Fs.segments (dirPath absolute segs slash) = segs.
Proof.
  intros Hne Hsegs. unfold Fs.segments, Path.norm_segments.
  rewrite dirPath_pieces by done.
  rewrite split_join
    by (try (by apply pieces_plain_no_slash);
        unfold pieces; destruct absolute, segs; done).
  unfold pieces. rewrite !fold_left_app.
  assert (Hpre : fold_left (Path.norm_step false)
                   (if absolute then [""] else []) [] = [])
    by (by destruct absolute).
  rewrite Hpre, (fold_norm_step_plain _ segs) by done.
  assert (Hpost : forall st, fold_left (Path.norm_step false)
                    (if slash then [""] else []) st = st)
    by (intros; by destruct slash).
  by rewrite Hpost, app_nil_r, rev_involutive.
Qed.

Lemma dirPath_nonempty absolute segs slash :
  segs <> [] -> Forall (fun s => plain_name s = true) segs ->
  dirPath absolute segs slash <> "".
Proof.
  intros Hne Hsegs. unfold dirPath.
  pose proof (join_plain_nonempty segs Hne Hsegs).
  destruct absolute; [done|]. simpl. by destruct (JsString.join "/" segs).
Qed.

(** A path listed below a directory is the path of the directory and of
    names that lead from it to a regular file. *)
Lemma walk_node_files n :
  forall absolute segs slash,
    wf_node n = true -> nodup_node n = true -> segs <> [] ->
    Forall (fun s => plain_name s = true) segs ->
    Forall (fun p =>
              exists rel content,
                Forall (fun s => plain_name s = true) rel
                /\ p = dirPath absolute (segs ++ rel) false
                /\ Fs.descend n rel = Some (File content))
      (walk_node (dirPath absolute segs slash) n []).
Proof.
  induction n as [content|entries IH] using node_ind';
    intros absolute segs slash Hwf Hnd Hne Hsegs; [constructor|].
  change (walk_node (dirPath absolute segs slash) (Dir entries) [])
    with (walk_entries (dirPath absolute segs slash) entries []).
  rewrite walk_entries_visit.
  apply wf_node_entries in Hwf.
  apply nodup_node_entries in Hnd as [Hdistinct Hnd].
  assert (Hlookup : forall name child,
             In (name, child) entries ->
             Fs.lookup_entry name entries = Some child)
    by (intros; by apply lookup_entry_distinct).
  clear Hdistinct.
  apply Forall_concat, Forall_forall. intros l Hl.
  apply list_elem_of_In, in_map_iff in Hl as ([file child] & <- & Hin).
  rewrite Forall_forall in IH, Hwf, Hnd.
  assert (Hel : (file, child) ∈ entries) by (by apply list_elem_of_In).
  destruct (Hwf _ Hel) as [Hname Hwfc].
  pose proof (Hnd _ Hel) as Hndc. pose proof (IH _ Hel) as Hchild.
  pose proof (Hlookup _ _ Hin) as Hhere.
  cbn [fst snd] in *. unfold visit; cbn [fst snd].
  rewrite join_dirPath by done.
  destruct child as [content|sub].
  - repeat constructor. exists [file], content.
    split; [by repeat constructor|]. split; [done|].
    cbn [Fs.descend]. by rewrite Hhere.
  - eapply Forall_impl.
    + apply (Hchild absolute (segs ++ [file]) false Hwfc Hndc);
        [by destruct segs|].
      apply Forall_app. split; [done|by repeat constructor].
    + intros p (rel & content & Hrel & -> & Hdesc).
      exists (file :: rel), content.
      split; [by constructor|]. split; [by rewrite <- app_assoc|].
      cbn [Fs.descend]. by rewrite Hhere.
Qed.

End WalkSound.

Lemma nodup_lookup_entry name entries child :
  nodup_node (Dir entries) = true ->
  Fs.lookup_entry name entries = Some child -> nodup_node child = true.
Proof.
  intros [_ Hall]%nodup_node_entries.
  induction Hall as [|[k c] rest Hc _ IH]; simpl; [done|].
  destruct (String.eqb k name); [by intros [= <-]|exact IH].
Qed.

Lemma nodup_descend segs :
  forall n m,
    nodup_node n = true -> Fs.descend n segs = Some m -> nodup_node m = true.
Proof.
  induction segs as [|s segs IH]; intros n m Hnd; simpl.
  - by intros [= <-].
  - destruct n as [content|entries]; [done|].
    destruct (Fs.lookup_entry s entries) as [child|] eqn:Hchild; [|done].
    apply IH. by eapply nodup_lookup_entry.
Qed.

(** X19: in a file system whose directories have entries with distinct
    names, every path that [walk] lists for a directory path in normal
    form is the path of a regular file: reading it succeeds. Directories
    are not listed. *)
Theorem walk_lists_files root absolute segs slash l :
  wf_node root = true -> nodup_node root = true ->
  segs <> [] -> Forall (fun s => plain_name s = true) segs ->
  walk root (dirPath absolute segs slash) = Ok l ->
  Forall (fun p => exists content, Fs.readFile root p = Ok content) l.
Proof.
  intros Hwf Hnd Hne Hsegs Hwalk.
  apply walk_inv in Hwalk as (entries & Hres & ->).
  assert (Hdesc : Fs.descend root segs = Some (Dir entries)).
  { unfold Fs.resolve in Hres.
    pose proof (dirPath_nonempty absolute segs slash Hne Hsegs) as Hd.
    apply String.eqb_neq in Hd. rewrite Hd in Hres.
    by rewrite segments_dirPath in Hres. }
  pose proof (walk_node_files (Dir entries) absolute segs slash
                (wf_resolve _ _ _ Hwf Hres)
                (nodup_descend _ _ _ Hnd Hdesc) Hne Hsegs) as Hfiles.
  eapply Forall_impl; [exact Hfiles|].
  intros p (rel & content & Hrel & -> & Hfile). exists content.
  assert (Hne' : segs ++ rel <> []) by (by destruct segs).
  assert (Hplain : Forall (fun s => plain_name s = true) (segs ++ rel))
    by (by apply Forall_app).
  unfold Fs.readFile, Fs.resolve.
  pose proof (dirPath_nonempty absolute (segs ++ rel) false Hne' Hplain) as Hd.
  apply String.eqb_neq in Hd. rewrite Hd.
  rewrite segments_dirPath by done.
  by rewrite (descend_app _ _ _ _ Hdesc), Hfile.
Qed.

Lemma walk_lists_files_example :
  Forall (fun p => exists content,
            Fs.readFile Examples.orphanTree p = Ok content)
    ["dst/a.txt"; "dst/b.txt"].
Proof.
  apply (walk_lists_files Examples.orphanTree false ["dst"] true);
    try reflexivity.
  - discriminate.
  - by repeat constructor.
Defined.

(** ** The commit message on the command line *)

Lemma sh_word_quoted message rest v :
  sh_word false rest = Some v ->
  sh_word true (escapeQuotes message +:+ "'" +:+ rest) = Some (message +:+ v).
Proof.
  intros Hrest. induction message as [|a m IH]; [done|].
  cbn [escapeQuotes]. destruct (Ascii.eqb a "'") eqn:Ea.
  - apply Ascii.eqb_eq in Ea as ->.
    change (String "'" <$> sh_word true (escapeQuotes m +:+ "'" +:+ rest)
            = Some (String "'" (m +:+ v))).
    by rewrite IH.
  - change (sh_word true (String a (escapeQuotes m +:+ "'" +:+ rest))
            = Some (String a (m +:+ v))).
    cbn [sh_word]. by rewrite Ea, IH.
Qed.

(** X20 ([Git.commit]).  The command that [commit] runs is
    [git commit -m] followed by one shell word, and the argument that a
    POSIX shell reads from this word is the commit message itself,
    whatever single quotes, backslashes or line breaks the message and the
    commit body hold. *)
Theorem commit_message_round_trip shell config COMMIT_BODY msg g :
  exists w,
    commit shell config COMMIT_BODY msg g
    = execCmd shell ("git commit -m " +:+ w) (workingDir g) true g
    /\ sh_word false w = Some (commitMessage config COMMIT_BODY msg).
Proof.
  exists ("'" +:+ escapeQuotes (commitMessage config COMMIT_BODY msg) +:+ "'").
  split; [done|].
  change (sh_word true
            (escapeQuotes (commitMessage config COMMIT_BODY msg) +:+ "'" +:+ "")
          = Some (commitMessage config COMMIT_BODY msg)).
  rewrite (sh_word_quoted _ "" ""); [|done].
  by rewrite append_nil_r.
Qed.

(** ** [addTrailingSlash] and [arrayEquals] *)

(** X21 ([addTrailingSlash]).  The result ends with a slash, starts with
    the argument, and is left as it is by a second call. *)
Theorem addTrailingSlash_idempotent str :
  endsWithChar "/" (addTrailingSlash str) = true
  /\ startsWith str (addTrailingSlash str) = true
  /\ addTrailingSlash (addTrailingSlash str) = addTrailingSlash str.
Proof.
  assert (H : endsWithChar "/" (addTrailingSlash str) = true).
  { unfold addTrailingSlash. destruct (endsWithChar "/" str) eqn:E; [done|].
    unfold endsWithChar. by rewrite last_char_app. }
  split; [done|]. split.
  - unfold addTrailingSlash. destruct (endsWithChar "/" str).
    + apply startsWith_refl.
    + apply startsWith_app.
  - unfold addTrailingSlash at 1. by rewrite H.
Qed.

Lemma strict_equal_eq x y : strict_equal x y = true <-> x = y.
Proof.
  destruct x, y; simpl; try (split; congruence).
  rewrite String.eqb_eq. split; congruence.
Qed.

Lemma every_equal (a1 a2 pre : list jsval) :
  length a1 = length a2 ->
  every (fun value i =>
           strict_equal value (default Undefined (at_index (pre ++ a2) i)))
        (length pre) a1 = true
  <-> a1 = a2.
Proof.
  revert a2 pre. induction a1 as [|x a1 IH]; intros [|y a2] pre Hlen;
    try done.
  cbn [every]. rewrite andb_true_iff, strict_equal_eq.
  unfold at_index at 1. rewrite nth_error_app2 by lia.
  rewrite Nat.sub_diag. cbn [nth_error default].
  specialize (IH a2 (pre ++ [y])).
  rewrite length_app, Nat.add_1_r, <- app_assoc in IH. cbn [app] in IH.
  rewrite IH by (simpl in Hlen; lia).
  split; [intros [-> ->]; done|intros [= -> ->]; done].
Qed.

(** X22 ([arrayEquals]).  The result is true exactly when both arguments
    are arrays and they hold the same elements in the same order. *)
Theorem arrayEquals_iff array1 array2 :
  arrayEquals array1 array2 = true
  <-> exists l, array1 = Some l /\ array2 = Some l.
Proof.
  destruct array1 as [a1|], array2 as [a2|]; simpl;
    try (split; [done|intros (l & ? & ?); done]).
  rewrite andb_true_iff, Nat.eqb_eq. split.
  - intros [Hlen H]. apply (every_equal a1 a2 []) in H; [|done].
    subst. eauto.
  - intros (l & [= ->] & [= ->]). split; [done|].
    by apply (every_equal l l []).
Qed.

(** ** [dedent] on an indented block *)

Section DedentFacts.

Import Dedent.

Lemma blank_not_break a :
  is_blank a = true ->
  Ascii.eqb a (chr 10) = false /\ Ascii.eqb a (chr 13) = false.
Proof.
  unfold is_blank.
  intros [H|H]%orb_true_iff; apply Ascii.eqb_eq in H; subst a; done.
Qed.

Lemma only_blanks_no_break s :
  only_blanks s = true ->
  has_char (chr 10) s = false /\ has_char (chr 13) s = false.
Proof.
  induction s as [|a s IH]; [done|]. cbn [only_blanks has_char].
  intros [Ha Hs]%andb_true_iff.
  destruct (blank_not_break a Ha) as [-> ->]. cbn [orb]. by apply IH.
Qed.

Lemma noBreak_inv c :
  noBreak c = true ->
  has_char (chr 10) c = false /\ has_char (chr 13) c = false.
Proof.
  unfold noBreak. intros [H1 H2]%andb_true_iff.
  by apply negb_true_iff in H1, H2.
Qed.

Lemma only_blanks_LF x b : only_blanks (x +:+ LF +:+ b) = false.
Proof.
  induction x as [|a x IH]; [done|].
  cbn [String.append only_blanks]. rewrite IH. apply andb_false_r.
Qed.

Lemma strip_last_line_app x b :
  has_char (chr 13) x = false -> only_blanks b = true ->
  strip_last_line (x +:+ LF +:+ b) = x.
Proof.
  intros Hx Hb. induction x as [|a x IH].
  - change (strip_last_line (String (chr 10) b) = "").
    cbn [strip_last_line]. by rewrite Ascii.eqb_refl, Hb.
  - cbn [has_char] in Hx. apply orb_false_iff in Hx as [Ha Hx].
    cbn [String.append strip_last_line].
    rewrite only_blanks_LF, andb_false_r, Ha. cbn [andb]. by rewrite IH.
Qed.

Lemma blank_run_app_blank s X :
  only_blanks s = true -> blank_run (s +:+ X) = String.length s + blank_run X.
Proof.
  induction s as [|a s IH]; [done|].
  cbn [only_blanks String.append blank_run String.length].
  intros [-> H]%andb_true_iff. by rewrite IH.
Qed.

Lemma blank_run_app_0 c X :
  blank_run X = 0 -> blank_run (c +:+ X) = blank_run c.
Proof.
  intros HX. induction c as [|a c IH]; [done|].
  cbn [String.append blank_run]. by rewrite IH.
Qed.

Lemma blank_run_blockOf indent r : blank_run (blockOf indent r) = 0.
Proof. by destruct r. Qed.

Lemma indents_no_LF c X :
  has_char (chr 10) c = false -> indents (c +:+ X) = indents X.
Proof.
  induction c as [|a c IH]; [done|]. cbn [has_char].
  intros [Ha Hc]%orb_false_iff. cbn [String.append indents].
  rewrite Ha. cbn [andb]. by apply IH.
Qed.

Lemma unindent_no_LF size c X :
  has_char (chr 10) c = false ->
  unindent size 0 (c +:+ X) = c +:+ unindent size 0 X.
Proof.
  induction c as [|a c IH]; [done|]. cbn [has_char].
  intros [Ha Hc]%orb_false_iff. cbn [String.append unindent].
  rewrite Ha. cbn [andb]. by rewrite IH.
Qed.

Lemma unindent_skip size p X :
  unindent size (String.length p) (p +:+ X) = unindent size 0 X.
Proof. induction p as [|a p IH]; [done|]. exact IH. Qed.

Lemma fold_min n rest m :
  Forall (fun x => n <= x) (m :: rest) -> In n (m :: rest) ->
  fold_left Nat.min rest m = n.
Proof.
  revert m; induction rest as [|x rest IH]; intros m Hall Hin.
  - by destruct Hin as [->|[]].
  - inversion Hall as [|? ? Hm Hrest]; inversion Hrest as [|? ? Hx Hr]; subst.
    cbn [fold_left]. apply IH.
    + constructor; [lia|done].
    + destruct Hin as [->|[->|Hin]]; [left; lia|left; lia|by right].
Qed.

Lemma blockOf_join lines :
  lines <> [] -> blockOf "" lines = LF +:+ JsString.join LF lines.
Proof.
  assert (Hc : forall c, indented "" c = c).
  { intros c. unfold indented. destruct (String.eqb_spec c ""); by subst. }
  induction lines as [|c r IH]; [done|]. intros _.
  cbn [blockOf]. rewrite Hc. destruct r as [|d r].
  - cbn [blockOf]. by rewrite append_nil_r.
  - rewrite IH by done. by rewrite join_cons.
Qed.

Variable indent : string.
Hypothesis Hblank : only_blanks indent = true.
Hypothesis Hindent : indent <> "".

Lemma indent_length : String.length indent <> 0.
Proof using Hindent. clear Hblank. by destruct indent. Qed.

Lemma indents_blockOf lines :
  Forall (fun c => noBreak c = true) lines ->
  indents (blockOf indent lines)
  = flat_map (fun c => if String.eqb c "" then []
                       else [String.length indent + blank_run c]) lines.
Proof using Hblank Hindent.
  induction lines as [|c r IH]; [done|]. intros Hall.
  inversion Hall as [|? ? Hc Hr]; subst.
  destruct (noBreak_inv c Hc) as [HcLF _].
  destruct (only_blanks_no_break indent Hblank) as [HiLF _].
  cbn [blockOf flat_map].
  change (LF +:+ indented indent c +:+ blockOf indent r)
    with (String (chr 10) (indented indent c +:+ blockOf indent r)).
  cbn [indents]. rewrite Ascii.eqb_refl. cbn [andb].
  unfold indented. destruct (String.eqb c "") eqn:Ec.
  - cbn [String.append app]. rewrite blank_run_blockOf. cbn [Nat.eqb negb].
    by apply IH.
  - rewrite append_assoc, blank_run_app_blank by done.
    rewrite blank_run_app_0 by apply blank_run_blockOf.
    destruct (Nat.eqb_spec (String.length indent + blank_run c) 0) as [E|_].
    { pose proof indent_length. lia. }
    cbn [negb app]. rewrite !indents_no_LF by done. by rewrite IH.
Qed.

Lemma unindent_blockOf lines :
  Forall (fun c => noBreak c = true) lines ->
  unindent (String.length indent) 0 (blockOf indent lines) = blockOf "" lines.
Proof using Hblank Hindent.
  induction lines as [|c r IH]; [done|]. intros Hall.
  inversion Hall as [|? ? Hc Hr]; subst.
  destruct (noBreak_inv c Hc) as [HcLF _].
  cbn [blockOf].
  change (LF +:+ indented indent c +:+ blockOf indent r)
    with (String (chr 10) (indented indent c +:+ blockOf indent r)).
  change (LF +:+ indented "" c +:+ blockOf "" r)
    with (String (chr 10) (indented "" c +:+ blockOf "" r)).
  cbn [unindent]. rewrite Ascii.eqb_refl. cbn [andb].
  unfold indented. destruct (String.eqb c "") eqn:Ec.
  - cbn [String.append]. rewrite blank_run_blockOf.
    destruct (Nat.leb_spec (String.length indent) 0) as [E|_].
    { pose proof indent_length. lia. }
    by rewrite IH.
  - rewrite append_assoc, blank_run_app_blank by done.
    destruct (Nat.leb_spec (String.length indent)
                (String.length indent + blank_run (c +:+ blockOf indent r)))
      as [_|E]; [|lia].
    rewrite unindent_skip, unindent_no_LF by done.
    cbn [String.append]. by rewrite IH.
Qed.

Lemma blockOf_no_CR lines :
  Forall (fun c => noBreak c = true) lines ->
  has_char (chr 13) (blockOf indent lines) = false.
Proof using Hblank.
  induction lines as [|c r IH]; [done|]. intros Hall.
  inversion Hall as [|? ? Hc Hr]; subst.
  destruct (noBreak_inv c Hc) as [_ HcCR].
  destruct (only_blanks_no_break indent Hblank) as [_ HiCR].
  cbn [blockOf]. rewrite !has_char_app, IH by done.
  unfold indented. destruct (String.eqb c ""); [done|].
  by rewrite has_char_app, HiCR, HcCR.
Qed.

Lemma indents_least lines :
  Forall (fun x => String.length indent <= x)
    (flat_map (fun c => if String.eqb c "" then []
                        else [String.length indent + blank_run c]) lines).
Proof.
  clear Hblank Hindent.
  induction lines as [|c r IH]; [constructor|].
  cbn [flat_map]. destruct (String.eqb c ""); [done|].
  constructor; [lia|done].
Qed.

Lemma indents_flush lines :
  Exists (fun c => flush c = true) lines ->
  In (String.length indent)
    (flat_map (fun c => if String.eqb c "" then []
                        else [String.length indent + blank_run c]) lines).
Proof.
  clear Hblank Hindent.
  induction 1 as [c r Hc|c r _ IH]; cbn [flat_map]; apply in_or_app.
  - left. destruct c as [|a c]; [done|]. cbn [String.eqb blank_run].
    cbn [flush] in Hc. apply negb_true_iff in Hc. rewrite Hc.
    left. lia.
  - by right.
Qed.

End DedentFacts.

(** X23 ([dedent]).  A block whose lines stand each after a line break,
    the lines that are not empty after one and the same indentation of tabs
    and spaces, and which ends with a line break and tabs and spaces, is
    returned as its lines joined by line breaks, without the indentation;
    lines may be indented further, as long as one line starts at the
    indentation of the block. *)
Theorem dedent_block indent tail lines :
  indent <> "" ->
  Dedent.only_blanks indent = true ->
  Dedent.only_blanks tail = true ->
  Forall (fun c => noBreak c = true) lines ->
  Exists (fun c => flush c = true) lines ->
  Dedent.dedent (blockOf indent lines +:+ LF +:+ tail)
  = JsString.join LF lines.
Proof.
  intros Hindent Hblank Htail Hlines Hflush. unfold Dedent.dedent.
  rewrite strip_last_line_app by (by apply blockOf_no_CR || done).
  rewrite indents_blockOf by done.
  pose proof (indents_least indent lines) as Hleast.
  pose proof (indents_flush indent lines Hflush) as Hin.
  destruct (flat_map _ lines) as [|m rest]; [done|].
  rewrite (fold_min (String.length indent)) by done.
  rewrite unindent_blockOf by done.
  rewrite blockOf_join by (intros ->; inversion Hflush).
  reflexivity.
Qed.

Lemma dedent_block_example :
  Dedent.dedent
    (blockOf (TAB +:+ TAB) ["<details>"; "  <summary>Changed</summary>"; "";
                            "</details>"] +:+ LF +:+ TAB)
  = JsString.join LF ["<details>"; "  <summary>Changed</summary>"; "";
                      "</details>"].
Proof.
  apply dedent_block; try done.
  - apply Forall_forallb. by vm_compute.
  - apply Exists_cons_hd. by vm_compute.
Defined.
